(** * PyMine [Buffer]: the wire-format codec of [src/types/buffer.py]

    A shallow embedding of the cursor-based byte buffer and of its typed
    pack/unpack operations, followed by the properties of the codec.

    Python integers are unbounded, so they are modelled by [Z]; [Z.land],
    [Z.lor], [Z.shiftl] and [Z.shiftr] agree with Python's [&], [|], [<<]
    and [>>] on negative numbers too (infinite two's complement, flooring
    right shift).  A [bytes] object is a [list byte].  A method that mutates
    [self] is a state transformer over the record [Buffer]; an exception is
    a [Raise] result, and the state reached when the exception leaves the
    method is kept, as in Python. *)

From Stdlib Require Import ZArith List Bool Lia.
From Stdlib Require Import Strings.Byte.
Import ListNotations.

Local Open Scope Z_scope.

(* ------------------------------------------------------------------ *)
(** ** Bytes, results, Python slices *)

Definition bytes := list byte.

Definition Z_of_byte (b : byte) : Z := Z.of_N (Byte.to_N b).

Definition byte_of_Z (z : Z) : byte :=
  match Byte.of_N (Z.to_N z) with
  | Some b => b
  | None => x00
  end.

(** [len(b)] as a Python integer. *)
Definition len {A} (l : list A) : Z := Z.of_nat (length l).

(** The exception classes the codec can raise. *)
Inductive exn : Set :=
| ValueError          (* range check of a varint, negative shift count *)
| StructError         (* struct.error *)
| TypeError
| ZlibError           (* zlib.error *)
| UnicodeEncodeError
| UnicodeDecodeError.

Inductive result (A : Type) : Type :=
| Ok (a : A)
| Raise (e : exn).
Arguments Ok {A} a.
Arguments Raise {A} e.

Definition rbind {A B} (r : result A) (k : A -> result B) : result B :=
  match r with
  | Ok a => k a
  | Raise e => Raise e
  end.

(** Python's normalisation of one bound of a slice over a sequence of
    length [n]: a negative index counts from the end, and the result is
    clamped to [0..n]. *)
Definition py_index (n i : Z) : Z :=
  if i <? 0 then Z.max (i + n) 0 else Z.min i n.

(** [l[start:stop]]; [stop = None] is the omitted upper bound. *)
Definition py_slice {A} (l : list A) (start : Z) (stop : option Z) : list A :=
  let n := len l in
  let lo := py_index n start in
  let hi := match stop with
            | None => n
            | Some j => py_index n j
            end in
  firstn (Z.to_nat (hi - lo)) (skipn (Z.to_nat lo) l).

(* ------------------------------------------------------------------ *)
(** ** The [struct] module, on the formats the codec uses *)

(** The characters of the format strings that occur in the modelled
    methods: ['>'] (big-endian, standard sizes), ['B'] (unsigned char) and
    ['Q'] (unsigned long long).  A format string is a list of them. *)
Inductive fchar : Set := ch_gt | ch_B | ch_Q.

Definition format := list fchar.

(** Size of the field a format code stands for.  The byte-order character
    is accepted as the first character of a format only; anywhere else it
    is no format code and [struct] raises
    [struct.error: bad char in struct format]. *)
Definition code_size (c : fchar) : result Z :=
  match c with
  | ch_gt => Raise StructError
  | ch_B => Ok 1
  | ch_Q => Ok 8
  end.

(** Sizes of the fields of the codes that follow the byte-order character. *)
Fixpoint field_sizes (codes : format) : result (list Z) :=
  match codes with
  | [] => Ok []
  | c :: cs =>
      rbind (code_size c) (fun n =>
      rbind (field_sizes cs) (fun ns => Ok (n :: ns)))
  end.

Definition sum_Z (l : list Z) : Z := fold_right Z.add 0 l.

(** Native mode (no byte-order character): every field is aligned on its
    own size, as the C compiler of a 64-bit platform does. *)
Fixpoint native_end (off : Z) (sizes : list Z) : Z :=
  match sizes with
  | [] => off
  | n :: ns => native_end ((off + n - 1) / n * n + n) ns
  end.

(** [struct.calcsize(f)]. *)
Definition calcsize (f : format) : result Z :=
  match f with
  | ch_gt :: codes => rbind (field_sizes codes) (fun ns => Ok (sum_Z ns))
  | _ => rbind (field_sizes f) (fun ns => Ok (native_end 0 ns))
  end.

(** Big-endian encoding of [z] on [n] bytes, and its inverse. *)
Fixpoint be_encode (n : nat) (z : Z) : bytes :=
  match n with
  | O => []
  | S k => be_encode k (z / 256) ++ [byte_of_Z (z mod 256)]
  end.

Definition be_decode (l : bytes) : Z :=
  fold_left (fun acc b => acc * 256 + Z_of_byte b) l 0.

Fixpoint pack_fields (sizes : list Z) (vals : list Z) : result bytes :=
  match sizes, vals with
  | [], [] => Ok []
  | n :: ns, v :: vs =>
      if (0 <=? v) && (v <? 2 ^ (8 * n))
      then rbind (pack_fields ns vs) (fun rest =>
             Ok (be_encode (Z.to_nat n) v ++ rest))
      else Raise StructError
  | _, _ => Raise StructError
  end.

Fixpoint unpack_fields (sizes : list Z) (data : bytes) : list Z :=
  match sizes with
  | [] => []
  | n :: ns =>
      be_decode (firstn (Z.to_nat n) data)
        :: unpack_fields ns (skipn (Z.to_nat n) data)
  end.

(** [struct.pack('>' + codes, *vals)]: the format is parsed first, then
    the number of values and the range of each are checked. *)
Definition struct_pack_be (codes : format) (vals : list Z) : result bytes :=
  rbind (field_sizes codes) (fun ns => pack_fields ns vals).

(** [struct.unpack('>' + codes, data)]: the format is parsed first, then
    [data] must have exactly the size of the format. *)
Definition struct_unpack_be (codes : format) (data : bytes)
  : result (list Z) :=
  rbind (field_sizes codes) (fun ns =>
    if len data =? sum_Z ns then Ok (unpack_fields ns data)
    else Raise StructError).

(* ------------------------------------------------------------------ *)
(** ** The buffer and its raw operations *)

Record Buffer : Type := mkBuffer { buf : bytes; pos : Z }.

(** [Buffer(data)]: [__init__]. *)
Definition new_Buffer (data : bytes) : Buffer := mkBuffer data 0.

(** A method of a [Buffer]: the value returned or the exception raised,
    and the state of [self] afterwards. *)
Definition M (A : Type) : Type := Buffer -> result A * Buffer.

Definition ret {A} (a : A) : M A := fun s => (Ok a, s).

Definition bind {A B} (m : M A) (k : A -> M B) : M B :=
  fun s =>
    match m s with
    | (Ok a, s') => k a s'
    | (Raise e, s') => (Raise e, s')
    end.

Definition lift {A} (r : result A) : M A := fun s => (r, s).

Declare Scope buffer_scope.
Delimit Scope buffer_scope with buffer.
Notation "x <- m ;; k" := (bind m (fun x => k))
  (at level 61, m at next level, right associativity) : buffer_scope.
Local Open Scope buffer_scope.

(** [write]: [self.buf += data]. *)
Definition write (data : bytes) : M unit :=
  fun s => (Ok tt, mkBuffer (buf s ++ data) (pos s)).

(** [read]: the slice is taken at the old position, and the [finally]
    clause then advances the position by [length], which in the branch
    where it was omitted has been rebound to [len(self.buf)]. *)
Definition read (length : option Z) : M bytes :=
  fun s =>
    match length with
    | None =>
        let length := len (buf s) in
        (Ok (py_slice (buf s) (pos s) None),
         mkBuffer (buf s) (pos s + length))
    | Some length =>
        (Ok (py_slice (buf s) (pos s) (Some (pos s + length))),
         mkBuffer (buf s) (pos s + length))
    end.

(** [reset]. *)
Definition reset : M unit :=
  fun s => (Ok tt, mkBuffer (buf s) 0).

(** What [unpack] returns: the only field, or the tuple of the fields. *)
Inductive unpacked : Set :=
| Scalar (z : Z)
| Tuple (l : list Z).

(** [unpack(f)]: [struct.unpack('>' + f, self.read(struct.calcsize(f)))].
    The argument is evaluated first, so [calcsize] sees [f] as the caller
    gave it and the position has moved by the time [struct.unpack] parses
    ['>' + f]. *)
Definition unpack (f : format) : M unpacked :=
  size <- lift (calcsize f) ;;
  data <- read (Some size) ;;
  fields <- lift (struct_unpack_be f data) ;;
  match fields with
  | [z] => ret (Scalar z)
  | _ => ret (Tuple fields)
  end.

(** [pack(f, *data)]: [struct.pack('>' + f, *data)]. *)
Definition pack (f : format) (data : list Z) : result bytes :=
  struct_pack_be f data.

(** Use of an unpacked value as an integer operand ([b & 0x7F],
    [data >> 38]): a tuple is a [TypeError]. *)
Definition as_int (u : unpacked) : result Z :=
  match u with
  | Scalar z => Ok z
  | Tuple _ => Raise TypeError
  end.

(* ------------------------------------------------------------------ *)
(** ** Varints *)

(** [(-1 << (max_bits - 1)), (+1 << (max_bits - 1))]: Python raises
    [ValueError] on a negative shift count. *)
Definition varint_range (max_bits : Z) : result (Z * Z) :=
  if max_bits - 1 <? 0 then Raise ValueError
  else Ok (Z.shiftl (-1) (max_bits - 1), Z.shiftl 1 (max_bits - 1)).

(** The range check shared by [pack_varint] and [unpack_varint]. *)
Definition check_range (num max_bits : Z) : result unit :=
  rbind (varint_range max_bits) (fun '(num_min, num_max) =>
    if negb ((num_min <=? num) && (num <? num_max))
    then Raise ValueError
    else Ok tt).

(** The [for i in range(10)] loop of [pack_varint]; [n] is the number of
    iterations left.  The byte is packed with [struct.pack('>B', ...)]. *)
Fixpoint pack_varint_loop (n : nat) (num : Z) (out : bytes) : result bytes :=
  match n with
  | O => Ok out
  | S n' =>
      let b := Z.land num 0x7F in
      let num := Z.shiftr num 7 in
      rbind (struct_pack_be [ch_B] [Z.lor b (if num >? 0 then 0x80 else 0)])
        (fun packed =>
           let out := out ++ packed in
           if num =? 0 then Ok out else pack_varint_loop n' num out)
  end.

(** The constant added to a negative number: [1 + 1 << 32] parses as
    [(1 + 1) << 32], since [+] binds tighter than [<<]. *)
Definition fold_constant : Z := Z.shiftl (1 + 1) 32.

Definition pack_varint (num max_bits : Z) : result bytes :=
  rbind (check_range num max_bits) (fun _ =>
    let num := if num <? 0 then num + fold_constant else num in
    pack_varint_loop 10 num []).

(** The loop of [unpack_varint]: [i] is the index of the iteration, [n]
    the number of iterations left.  The byte is fetched with
    [self.unpack('>B')]. *)
Fixpoint unpack_varint_loop (n : nat) (i : Z) (num : Z) : M Z :=
  match n with
  | O => ret num
  | S n' =>
      u <- unpack [ch_gt; ch_B] ;;
      b <- lift (as_int u) ;;
      let num := Z.lor num (Z.shiftl (Z.land b 0x7F) (7 * i)) in
      if Z.land b 0x80 =? 0 then ret num
      else unpack_varint_loop n' (i + 1) num
  end.

Definition unpack_varint (max_bits : Z) : M Z :=
  num <- unpack_varint_loop 10 0 0 ;;
  let num := if Z.land num (Z.shiftl 1 31) =? 0 then num
             else num - Z.shiftl 1 32 in
  _ <- lift (check_range num max_bits) ;;
  ret num.

(* ------------------------------------------------------------------ *)
(** ** Strings *)

(** A Python [str] is a sequence of code points. *)
Definition str := list Z.

(** [chr(c).encode('utf-8')]: a surrogate cannot be encoded; a number that
    is no code point at all is rejected in the same way. *)
Definition utf8_encode_char (c : Z) : result bytes :=
  if (c <? 0) || (0x10FFFF <? c) then Raise UnicodeEncodeError
  else if c <? 0x80 then Ok [byte_of_Z c]
  else if c <? 0x800 then
    Ok [byte_of_Z (0xC0 + c / 64); byte_of_Z (0x80 + c mod 64)]
  else if (0xD800 <=? c) && (c <=? 0xDFFF) then Raise UnicodeEncodeError
  else if c <? 0x10000 then
    Ok [byte_of_Z (0xE0 + c / 4096); byte_of_Z (0x80 + (c / 64) mod 64);
        byte_of_Z (0x80 + c mod 64)]
  else
    Ok [byte_of_Z (0xF0 + c / 262144); byte_of_Z (0x80 + (c / 4096) mod 64);
        byte_of_Z (0x80 + (c / 64) mod 64); byte_of_Z (0x80 + c mod 64)].

(** [text.encode('utf-8')]. *)
Fixpoint utf8_encode (text : str) : result bytes :=
  match text with
  | [] => Ok []
  | c :: cs =>
      rbind (utf8_encode_char c) (fun b =>
      rbind (utf8_encode cs) (fun bs => Ok (b ++ bs)))
  end.

(** A continuation byte [10xxxxxx] gives its six payload bits. *)
Definition utf8_cont (b : byte) : option Z :=
  let z := Z_of_byte b in
  if (0x80 <=? z) && (z <? 0xC0) then Some (z - 0x80) else None.

(** Decoding of the first character of [data] (strict: no overlong form,
    no surrogate, nothing above U+10FFFF) and the bytes that follow it. *)
Definition utf8_decode_char (data : bytes) : result (Z * bytes) :=
  match data with
  | [] => Raise UnicodeDecodeError
  | b0 :: rest =>
      let z0 := Z_of_byte b0 in
      if z0 <? 0x80 then Ok (z0, rest)
      else if z0 <? 0xC0 then Raise UnicodeDecodeError
      else if z0 <? 0xE0 then
        match rest with
        | b1 :: rest =>
            match utf8_cont b1 with
            | Some c1 =>
                let c := (z0 - 0xC0) * 64 + c1 in
                if 0x80 <=? c then Ok (c, rest) else Raise UnicodeDecodeError
            | None => Raise UnicodeDecodeError
            end
        | _ => Raise UnicodeDecodeError
        end
      else if z0 <? 0xF0 then
        match rest with
        | b1 :: b2 :: rest =>
            match utf8_cont b1, utf8_cont b2 with
            | Some c1, Some c2 =>
                let c := (z0 - 0xE0) * 4096 + c1 * 64 + c2 in
                if (0x800 <=? c) && negb ((0xD800 <=? c) && (c <=? 0xDFFF))
                then Ok (c, rest) else Raise UnicodeDecodeError
            | _, _ => Raise UnicodeDecodeError
            end
        | _ => Raise UnicodeDecodeError
        end
      else if z0 <? 0xF8 then
        match rest with
        | b1 :: b2 :: b3 :: rest =>
            match utf8_cont b1, utf8_cont b2, utf8_cont b3 with
            | Some c1, Some c2, Some c3 =>
                let c := (z0 - 0xF0) * 262144 + c1 * 4096 + c2 * 64 + c3 in
                if (0x10000 <=? c) && (c <=? 0x10FFFF)
                then Ok (c, rest) else Raise UnicodeDecodeError
            | _, _, _ => Raise UnicodeDecodeError
            end
        | _ => Raise UnicodeDecodeError
        end
      else Raise UnicodeDecodeError
  end.

(** [data.decode('utf-8')]; [n] bounds the number of characters. *)
Fixpoint utf8_decode_fuel (n : nat) (data : bytes) : result str :=
  match data, n with
  | [], _ => Ok []
  | _, O => Raise UnicodeDecodeError
  | _, S n' =>
      rbind (utf8_decode_char data) (fun '(c, rest) =>
      rbind (utf8_decode_fuel n' rest) (fun cs => Ok (c :: cs)))
  end.

Definition utf8_decode (data : bytes) : result str :=
  utf8_decode_fuel (length data) data.

(** [pack_string]. *)
Definition pack_string (text : str) : result bytes :=
  rbind (utf8_encode text) (fun text =>
  rbind (pack_varint (len text) 16) (fun prefix =>
    Ok (prefix ++ text))).

(** [self.read(length).decode('utf-8')], the return statement of
    [unpack_string]. *)
Definition unpack_string_rest (length : Z) : M str :=
  data <- read (Some length) ;;
  lift (utf8_decode data).

(** [unpack_string]. *)
Definition unpack_string : M str :=
  length <- unpack_varint 16 ;;
  unpack_string_rest length.

(* ------------------------------------------------------------------ *)
(** ** Positions *)

(** The local function of [pack_pos]. *)
Definition to_twos_complement (num bits : Z) : Z :=
  if num <? 0 then num + Z.shiftl 1 bits else num.

(** The word [pack_pos] hands to [struct.pack('>Q', ...)]: the [sum] of
    the three shifted fields. *)
Definition pos_word (x y z : Z) : Z :=
  0 + Z.shiftl (to_twos_complement x 26) 38
    + Z.shiftl (to_twos_complement y 12) 26
    + to_twos_complement z 26.

Definition pack_pos (x y z : Z) : result bytes :=
  struct_pack_be [ch_Q] [pos_word x y z].

(** The local function of [unpack_pos]. *)
Definition from_twos_complement (num bits : Z) : Z :=
  if negb (Z.land num (Z.shiftl 1 (bits - 1)) =? 0)
  then num - Z.shiftl 1 bits
  else num.

(** The three fields [unpack_pos] takes out of the word it has read
    ([>>] binds tighter than [&]). *)
Definition pos_fields (data : Z) : Z * Z * Z :=
  let x := from_twos_complement (Z.shiftr data 38) 26 in
  let y := from_twos_complement (Z.land (Z.shiftr data 26) 0xFFF) 12 in
  let z := from_twos_complement (Z.land data 0x3FFFFFF) 26 in
  (x, y, z).

(** [unpack_pos]: the word is fetched with [self.unpack('>Q')]. *)
Definition unpack_pos : M (Z * Z * Z) :=
  u <- unpack [ch_gt; ch_Q] ;;
  data <- lift (as_int u) ;;
  ret (pos_fields data).

(* ------------------------------------------------------------------ *)
(** ** Inventory slots *)

(** [pack_slot] and [unpack_slot] have the body [pass]: they return
    [None]. *)
Inductive NoneType : Set := PyNone.

Definition pack_slot : result NoneType := Ok PyNone.

Definition unpack_slot : M NoneType := ret PyNone.

(* ------------------------------------------------------------------ *)
(** ** Frames *)

Section Frames.

(** [zlib.compress] and [zlib.decompress] belong to the Python library;
    the frame codec is parametric in them. *)
Variable zlib_compress : bytes -> bytes.
Variable zlib_decompress : bytes -> result bytes.

(** [to_bytes]: [self] is only read. *)
Definition to_bytes (self : Buffer) (comp_thresh : Z) : result bytes :=
  rbind
    (if comp_thresh >=? 0 then
       if len (buf self) >=? comp_thresh then
         rbind (pack_varint (len (buf self)) 32) (fun prefix =>
           Ok (prefix ++ zlib_compress (buf self)))
       else
         rbind (pack_varint 0 32) (fun prefix => Ok (prefix ++ buf self))
     else Ok (buf self))
    (fun data =>
       rbind (pack_varint (len data) 32) (fun prefix =>
         Ok (prefix ++ data))).

(** [from_bytes]: the buffers it creates are local, so only the one it
    returns is kept. *)
Definition from_bytes (data : bytes) (comp_thresh : Z) : result Buffer :=
  let b := new_Buffer data in
  match unpack_varint 32 b with
  | (Raise e, _) => Raise e
  | (Ok length, b) =>
      match read (Some length) b with
      | (Raise e, _) => Raise e
      | (Ok body, _) =>
          let b := new_Buffer body in
          if comp_thresh >=? 0 then
            match unpack_varint 32 b with
            | (Raise e, _) => Raise e
            | (Ok uncomp_len, b) =>
                if uncomp_len >? 0 then
                  match read None b with
                  | (Raise e, _) => Raise e
                  | (Ok rest, _) =>
                      rbind (zlib_decompress rest) (fun plain =>
                        Ok (new_Buffer plain))
                  end
                else Ok b
            end
          else Ok b
      end
  end.

End Frames.

(* ------------------------------------------------------------------ *)
(** ** The round trips the specification states *)

(** [unpack_varint(Buffer(pack_varint(v)))], at one width. *)
Definition varint_roundtrip (v max_bits : Z) : result Z :=
  rbind (pack_varint v max_bits) (fun data =>
    fst (unpack_varint max_bits (new_Buffer data))).

(** [unpack_string(Buffer(pack_string(s)))]. *)
Definition string_roundtrip (text : str) : result str :=
  rbind (pack_string text) (fun data =>
    fst (unpack_string (new_Buffer data))).

(** [unpack_pos(Buffer(pack_pos(x, y, z)))]. *)
Definition pos_roundtrip (x y z : Z) : result (Z * Z * Z) :=
  rbind (pack_pos x y z) (fun data =>
    fst (unpack_pos (new_Buffer data))).

(** [from_bytes(Buffer(payload).to_bytes(t), t).read()]. *)
Definition frame_roundtrip
  (zlib_compress : bytes -> bytes) (zlib_decompress : bytes -> result bytes)
  (payload : bytes) (comp_thresh : Z) : result bytes :=
  rbind (to_bytes zlib_compress (new_Buffer payload) comp_thresh)
    (fun frame =>
       rbind (from_bytes zlib_decompress frame comp_thresh) (fun b =>
         fst (read None b))).

(* ------------------------------------------------------------------ *)
(** ** Sequences of operations on one buffer *)

(** The operations a caller can apply to a [Buffer].  The [pack_*]
    operations are class methods: they compute bytes and never touch the
    instance. *)
Inductive op : Type :=
| op_write (data : bytes)
| op_read (length : option Z)
| op_reset
| op_unpack_varint (max_bits : Z)
| op_unpack_string
| op_unpack_pos
| op_unpack_slot
| op_pack_varint (num max_bits : Z)
| op_pack_string (text : str)
| op_pack_pos (x y z : Z)
| op_pack_slot.

(** The state of the buffer after one operation, whether it returned or
    raised. *)
Definition step (o : op) (s : Buffer) : Buffer :=
  match o with
  | op_write data => snd (write data s)
  | op_read length => snd (read length s)
  | op_reset => snd (reset s)
  | op_unpack_varint max_bits => snd (unpack_varint max_bits s)
  | op_unpack_string => snd (unpack_string s)
  | op_unpack_pos => snd (unpack_pos s)
  | op_unpack_slot => snd (unpack_slot s)
  | op_pack_varint _ _ | op_pack_string _ | op_pack_pos _ _ _
  | op_pack_slot => s
  end.

Definition run (ops : list op) (s : Buffer) : Buffer :=
  fold_left (fun s o => step o s) ops s.

(** The bounds the data model states for the cursor. *)
Definition cursor_in_bounds (s : Buffer) : Prop :=
  0 <= pos s <= len (buf s).



(* ------------------------------------------------------------------ *)
(** ** The unsigned 7-bits-per-byte encoding, as the specification words it *)

(** Each byte carries 7 payload bits in its low bits and a continuation
    flag in its high bit, set on every byte except the last; [n] bounds
    the number of bytes. *)
Fixpoint uleb128_fuel (n : nat) (u : Z) : bytes :=
  match n with
  | O => []
  | S n' =>
      if u / 128 =? 0 then [byte_of_Z (u mod 128)]
      else byte_of_Z (128 + u mod 128) :: uleb128_fuel n' (u / 128)
  end.

Definition uleb128 (u : Z) : bytes :=
  uleb128_fuel (S (Z.to_nat (Z.log2 u))) u.

(* ------------------------------------------------------------------ *)
(** ** Arrays and UUIDs *)

(** [f * n] on strings: [n] copies of [f], none when [n <= 0]. *)
Definition str_mul (f : format) (n : Z) : format :=
  concat (repeat f (Z.to_nat n)).

(** [pack_array]: [struct.pack(f'>{f*len(array)}', *array)]. *)
Definition pack_array (f : format) (array : list Z) : result bytes :=
  struct_pack_be (str_mul f (len array)) array.

(** [unpack_array]: the size is that of ['>' + f], the bytes read are
    unpacked with ['>' + f*length]. *)
Definition unpack_array (f : format) (length : Z) : M (list Z) :=
  size <- lift (calcsize (ch_gt :: f)) ;;
  data <- read (Some (size * length)) ;;
  lift (struct_unpack_be (str_mul f length) data).

(** [uuid.UUID(bytes=data)]: [ValueError] unless there are 16 bytes; the
    UUID is given by its 128-bit integer, the big-endian value of the
    bytes. *)
Definition UUID_of_bytes (data : bytes) : result Z :=
  if len data =? 16 then Ok (be_decode data) else Raise ValueError.

(** [unpack_uuid]. *)
Definition unpack_uuid : M Z :=
  data <- read (Some 16) ;;
  lift (UUID_of_bytes data).

(* ------------------------------------------------------------------ *)
(** ** Notions the properties are stated with *)

(** The data the writes of a sequence append, in order. *)
Fixpoint written (ops : list op) : bytes :=
  match ops with
  | [] => []
  | op_write data :: rest => data ++ written rest
  | _ :: rest => written rest
  end.

(** [v] fits an unsigned field of [n] bytes. *)
Definition fits (n v : Z) : Prop := 0 <= v < 2 ^ (8 * n).

(** [v] can be packed under the format code [c]. *)
Definition accepts (c : fchar) (v : Z) : Prop :=
  exists n, code_size c = Ok n /\ fits n v.

(** What [unpack] makes of the fields it has read. *)
Definition unpacked_of (fields : list Z) : unpacked :=
  match fields with
  | [z] => Scalar z
  | _ => Tuple fields
  end.

(** A read that does not go backwards: without length, or of a length
    that is not negative. *)
Definition forward (length : option Z) : Prop :=
  match length with
  | None => True
  | Some n => 0 <= n
  end.

(** The continuation flag of a byte. *)
Definition continues (b : byte) : bool := 0x80 <=? Z_of_byte b.

(* ------------------------------------------------------------------ *)
(** ** Auxiliary definitions of the proofs *)

(** [p] holds of every integer in [0, n). *)
Definition check_below (n : nat) (p : Z -> bool) : bool :=
  forallb (fun k => p (Z.of_nat k)) (seq 0 n).

(** The bytes the loop of [pack_varint] appends in at most [n]
    iterations, in arithmetic form. *)
Fixpoint varint_bytes (n : nat) (num : Z) : bytes :=
  match n with
  | O => []
  | S n' =>
      let rest := Z.shiftr num 7 in
      byte_of_Z ((if rest >? 0 then 128 else 0) + num mod 128)
        :: (if rest =? 0 then [] else varint_bytes n' rest)
  end.

(** Linear goals with division and remainder by constants. *)
Ltac div_mod_lia := Z.div_mod_to_equations; lia.

(** Case analysis on the comparisons the goal tests. *)
Ltac decide_tests :=
  repeat match goal with
    | |- context [?a <? ?b] => destruct (Z.ltb_spec a b); try div_mod_lia
    | |- context [?a <=? ?b] => destruct (Z.leb_spec a b); try div_mod_lia
    end.

(* ================================================================== *)
(** * Properties *)

(** ** Arithmetic on bytes *)

Lemma check_below_sound (n : nat) (p : Z -> bool) :
  check_below n p = true ->
  forall z, 0 <= z < Z.of_nat n -> p z = true.
Proof.
  unfold check_below. intros H z Hz.
  rewrite forallb_forall in H.
  rewrite <- (Z2Nat.id z) by lia.
  apply H, in_seq. lia.
Qed.

Lemma Z_of_byte_range (b : byte) : 0 <= Z_of_byte b < 256.
Proof.
  unfold Z_of_byte. pose proof (Byte.to_N_bounded b). lia.
Qed.

Lemma Z_of_byte_of_Z (z : Z) : 0 <= z < 256 -> Z_of_byte (byte_of_Z z) = z.
Proof.
  intros Hz. unfold Z_of_byte, byte_of_Z.
  destruct (Byte.of_N (Z.to_N z)) as [b|] eqn:E.
  - apply Byte.to_of_N in E. rewrite E. lia.
  - apply Byte.of_N_None_iff in E. lia.
Qed.

Lemma byte_of_Z_of_byte (b : byte) : byte_of_Z (Z_of_byte b) = b.
Proof.
  unfold Z_of_byte, byte_of_Z.
  rewrite N2Z.id, Byte.of_to_N. reflexivity.
Qed.

Lemma land_127 (num : Z) : Z.land num 0x7F = num mod 128.
Proof. exact (Z.land_ones num 7 ltac:(lia)). Qed.

Lemma lor_flag (b : Z) : 0 <= b < 128 -> Z.lor b 0x80 = 128 + b.
Proof.
  intros Hb. apply Z.eqb_eq.
  exact (check_below_sound 128 (fun b => Z.lor b 0x80 =? 128 + b)
           eq_refl b Hb).
Qed.

(** The byte [pack_varint] emits at one iteration. *)
Lemma varint_byte (num : Z) (more : bool) :
  Z.lor (Z.land num 0x7F) (if more then 0x80 else 0)
  = (if more then 128 else 0) + num mod 128.
Proof.
  rewrite land_127.
  pose proof (Z.mod_pos_bound num 128 ltac:(lia)).
  destruct more.
  - apply lor_flag; lia.
  - rewrite Z.lor_0_r. reflexivity.
Qed.

Lemma struct_pack_B (v : Z) :
  0 <= v < 256 -> struct_pack_be [ch_B] [v] = Ok [byte_of_Z (v mod 256)].
Proof.
  intros Hv.
  assert (E : (0 <=? v) && (v <? 2 ^ (8 * 1)) = true).
  { apply andb_true_iff; split; [apply Z.leb_le | apply Z.ltb_lt];
      change (2 ^ (8 * 1)) with 256; lia. }
  unfold struct_pack_be.
  cbn [field_sizes code_size rbind pack_fields].
  rewrite E. reflexivity.
Qed.

(** Every iteration of the loop of [pack_varint] packs a value that fits
    one byte, so the loop never raises. *)
Lemma pack_varint_loop_bytes (n : nat) :
  forall num out,
    pack_varint_loop n num out = Ok (out ++ varint_bytes n num).
Proof.
  induction n as [|n IH]; intros num out; cbn [pack_varint_loop varint_bytes].
  - rewrite app_nil_r. reflexivity.
  - rewrite varint_byte.
    pose proof (Z.mod_pos_bound num 128 ltac:(lia)) as Hm.
    rewrite struct_pack_B by (destruct (Z.shiftr num 7 >? 0); lia).
    cbn [rbind].
    rewrite Z.mod_small by (destruct (Z.shiftr num 7 >? 0); lia).
    destruct (Z.shiftr num 7 =? 0).
    + reflexivity.
    + rewrite IH, <- app_assoc. reflexivity.
Qed.

(** ** Range check of [pack_varint] *)

Lemma varint_range_spec (max_bits : Z) :
  1 <= max_bits ->
  varint_range max_bits = Ok (- 2 ^ (max_bits - 1), 2 ^ (max_bits - 1)).
Proof.
  intros H. unfold varint_range.
  destruct (Z.ltb_spec (max_bits - 1) 0); [lia|].
  rewrite !Z.shiftl_mul_pow2 by lia.
  f_equal. f_equal; lia.
Qed.

Lemma check_range_spec (num max_bits : Z) :
  check_range num max_bits = Ok tt
    <-> - 2 ^ (max_bits - 1) <= num < 2 ^ (max_bits - 1).
Proof.
  unfold check_range.
  destruct (Z.le_gt_cases 1 max_bits) as [H|H].
  - rewrite varint_range_spec by assumption. cbn [rbind].
    destruct (Z.leb_spec (- 2 ^ (max_bits - 1)) num);
      destruct (Z.ltb_spec num (2 ^ (max_bits - 1)));
      cbn [andb negb]; split; intros; try lia; try discriminate; reflexivity.
  - unfold varint_range.
    destruct (Z.ltb_spec (max_bits - 1) 0); [|lia].
    cbn [rbind]. rewrite Z.pow_neg_r by lia.
    split; intros; [discriminate | lia].
Qed.

Lemma check_range_cases (num max_bits : Z) :
  check_range num max_bits = Ok tt \/ check_range num max_bits = Raise ValueError.
Proof.
  unfold check_range, varint_range.
  destruct (max_bits - 1 <? 0); cbn [rbind]; [now right|].
  destruct (negb _); [now right | now left].
Qed.

Lemma pack_varint_in_range (num max_bits : Z) :
  check_range num max_bits = Ok tt ->
  pack_varint num max_bits
  = Ok (varint_bytes 10 (if num <? 0 then num + fold_constant else num)).
Proof.
  intros H. unfold pack_varint. rewrite H. cbn [rbind].
  rewrite pack_varint_loop_bytes. reflexivity.
Qed.

Lemma pack_varint_out_of_range (num max_bits : Z) :
  check_range num max_bits = Raise ValueError ->
  pack_varint num max_bits = Raise ValueError.
Proof.
  intros H. unfold pack_varint. rewrite H. reflexivity.
Qed.

(** C6.  [pack_varint(value, max_bits)] raises the range error
    ([ValueError] in the source) exactly when [value] lies outside
    [[-2^(max_bits-1), 2^(max_bits-1))], and it returns bytes exactly when
    [value] lies inside, so a failure produces no bytes; [2^31] and
    [-2^31 - 1] are rejected at the default width.  For [max_bits < 1] the
    interval is empty (as [2 ^ k = 0] for a negative [k] in [Z]) and the
    source raises [ValueError] on the negative shift count, for every
    [value]. *)
Theorem pack_varint_range_rejection (value max_bits : Z) :
  (pack_varint value max_bits = Raise ValueError
   <-> ~ (- 2 ^ (max_bits - 1) <= value < 2 ^ (max_bits - 1)))
  /\ ((exists out, pack_varint value max_bits = Ok out)
      <-> - 2 ^ (max_bits - 1) <= value < 2 ^ (max_bits - 1))
  /\ pack_varint (2 ^ 31) 32 = Raise ValueError
  /\ pack_varint (- 2 ^ 31 - 1) 32 = Raise ValueError.
Proof.
  pose proof (check_range_spec value max_bits) as Hspec.
  split; [|split; [|split; reflexivity]].
  - destruct (check_range_cases value max_bits) as [H|H].
    + rewrite (pack_varint_in_range _ _ H). split.
      * discriminate.
      * intros Hn. exfalso. apply Hn, Hspec, H.
    + rewrite (pack_varint_out_of_range _ _ H). split.
      * intros _ Hin. apply Hspec in Hin. congruence.
      * reflexivity.
  - destruct (check_range_cases value max_bits) as [H|H].
    + rewrite (pack_varint_in_range _ _ H). split.
      * intros _. apply Hspec, H.
      * intros _. eexists. reflexivity.
    + rewrite (pack_varint_out_of_range _ _ H). split.
      * intros [out Hout]. discriminate.
      * intros Hin. apply Hspec in Hin. congruence.
Qed.

(** ** The bytes of a varint *)

Lemma varint_bytes_uleb128_fuel (n : nat) :
  forall u, 0 <= u < 2 ^ (7 * Z.of_nat n) ->
    varint_bytes n u = uleb128_fuel n u.
Proof.
  induction n as [|n IH]; intros u Hu; cbn [varint_bytes uleb128_fuel].
  - reflexivity.
  - rewrite Z.shiftr_div_pow2 by lia. change (2 ^ 7) with 128.
    assert (Hq : 0 <= u / 128 < 2 ^ (7 * Z.of_nat n)).
    { split; [apply Z.div_pos; lia|].
      apply Z.div_lt_upper_bound; [lia|].
      replace (7 * Z.of_nat (S n)) with (7 + 7 * Z.of_nat n) in Hu by lia.
      rewrite Z.pow_add_r in Hu by lia. change (2 ^ 7) with 128 in Hu. lia. }
    destruct (Z.eqb_spec (u / 128) 0) as [E|E].
    + rewrite E. reflexivity.
    + destruct (Z.gtb_spec (u / 128) 0); [|lia].
      rewrite IH by assumption. reflexivity.
Qed.

Lemma uleb128_fuel_enough (n : nat) :
  forall m u,
    0 <= u < 2 ^ (7 * Z.of_nat (S n)) -> u < 2 ^ (7 * Z.of_nat (S m)) ->
    uleb128_fuel (S n) u = uleb128_fuel (S m) u.
Proof.
  induction n as [|n IH]; intros m u Hn Hm.
  - change (2 ^ (7 * Z.of_nat 1)) with 128 in Hn.
    cbn [uleb128_fuel]. rewrite Z.div_small by lia. reflexivity.
  - cbn [uleb128_fuel].
    destruct (Z.eqb_spec (u / 128) 0) as [E|E]; [reflexivity|].
    f_equal.
    assert (Hdiv : forall k : nat, u < 2 ^ (7 * Z.of_nat (S k)) ->
                                   u / 128 < 2 ^ (7 * Z.of_nat k)).
    { intros k Hk. apply Z.div_lt_upper_bound; [lia|].
      replace (7 * Z.of_nat (S k)) with (7 + 7 * Z.of_nat k) in Hk by lia.
      rewrite Z.pow_add_r in Hk by lia. change (2 ^ 7) with 128 in Hk. lia. }
    destruct m as [|m].
    + exfalso. apply E. apply Z.div_small.
      change (2 ^ (7 * Z.of_nat 1)) with 128 in Hm. lia.
    + apply IH.
      * split; [apply Z.div_pos; lia | apply Hdiv; lia].
      * apply Hdiv; lia.
Qed.

Lemma varint_bytes_uleb128 (u : Z) :
  0 <= u < 2 ^ 70 -> varint_bytes 10 u = uleb128 u.
Proof.
  intros Hu. rewrite varint_bytes_uleb128_fuel by exact Hu.
  unfold uleb128. apply uleb128_fuel_enough; [exact Hu|].
  rewrite Nat2Z.inj_succ, Z2Nat.id by apply Z.log2_nonneg.
  destruct (Z.eq_dec u 0) as [->|Hnz]; [reflexivity|].
  pose proof (Z.log2_spec u ltac:(lia)) as [_ Hlt].
  eapply Z.lt_le_trans; [exact Hlt|].
  apply Z.pow_le_mono_r; [lia|].
  pose proof (Z.log2_nonneg u). lia.
Qed.

Lemma fold_constant_value : fold_constant = 2 ^ 33.
Proof. reflexivity. Qed.

(** C2, as the source has it.  For every negative in-range value [v]
    not below [-2^33] (every negative in-range value at a width of at most
    34 bits, the default 32 included), [pack_varint] adds the constant
    [(1 + 1) << 32 = 2^33], which is what the source's [1 + 1 << 32]
    denotes, and the bytes it emits are the 7-bits-per-byte encoding of
    the unsigned value [v + 2^33]. *)
Theorem pack_varint_negative_fold (v max_bits : Z) :
  - 2 ^ (max_bits - 1) <= v < 0 ->
  - 2 ^ 33 <= v ->
  0 <= v + 2 ^ 33
  /\ pack_varint v max_bits = pack_varint_loop 10 (v + 2 ^ 33) []
  /\ pack_varint v max_bits = Ok (uleb128 (v + 2 ^ 33)).
Proof.
  intros Hv Hlow.
  assert (Hu : 0 <= v + 2 ^ 33 < 2 ^ 70) by lia.
  assert (Hin : check_range v max_bits = Ok tt) by (apply check_range_spec; lia).
  rewrite (pack_varint_in_range _ _ Hin), pack_varint_loop_bytes.
  destruct (Z.ltb_spec v 0); [|lia].
  rewrite fold_constant_value, varint_bytes_uleb128 by exact Hu.
  repeat split; try reflexivity. lia.
Qed.

Lemma pack_varint_negative_fold_witness :
  0 <= -1 + 2 ^ 33
  /\ pack_varint (-1) 32 = pack_varint_loop 10 (-1 + 2 ^ 33) []
  /\ pack_varint (-1) 32 = Ok (uleb128 (-1 + 2 ^ 33)).
Proof.
  apply (pack_varint_negative_fold (-1) 32); simpl; lia.
Defined.

(** C2, as the claim words it, fails: the bytes emitted for [-1] are not
    those of the unsigned value [-1 + (1 + 2^32)]. *)
Lemma pack_varint_fold_constant_counterexample :
  pack_varint (-1) 32 <> Ok (uleb128 (-1 + (1 + 2 ^ 32))).
Proof. vm_compute. discriminate. Qed.

(** ** Raw reads *)

Lemma len_nonneg {A} (l : list A) : 0 <= len l.
Proof. unfold len. lia. Qed.

Lemma len_skipn {A} (n : nat) (l : list A) :
  len (skipn n l) = Z.max 0 (len l - Z.of_nat n).
Proof. unfold len. rewrite length_skipn. lia. Qed.

(** [l[start:]] drops the elements before the normalised bound. *)
Lemma py_slice_to_end {A} (l : list A) (start : Z) :
  py_slice l start None = skipn (Z.to_nat (py_index (len l) start)) l.
Proof.
  unfold py_slice. apply firstn_all2.
  rewrite length_skipn. unfold len. lia.
Qed.

Lemma skipn_min {A} (l : list A) (p : Z) :
  0 <= p -> skipn (Z.to_nat (Z.min p (len l))) l = skipn (Z.to_nat p) l.
Proof.
  intros Hp. destruct (Z.le_gt_cases p (len l)).
  - rewrite Z.min_l by lia. reflexivity.
  - rewrite Z.min_r by lia.
    rewrite !skipn_all2; [reflexivity | unfold len in *; lia | unfold len; lia].
Qed.

(** C7.  For every state of the buffer, [read()] without a length returns
    the owned bytes from the current position to the end (for a negative
    position, the position counted from the end, as Python slices do),
    leaves the bytes as they are, and advances the position by the total
    length [len(self.buf)], whereas the number of bytes returned is only
    what remained after the position. *)
Theorem read_without_length (s : Buffer) :
  let start := if pos s <? 0 then Z.max (pos s + len (buf s)) 0 else pos s in
  let out := skipn (Z.to_nat start) (buf s) in
  read None s = (Ok out, mkBuffer (buf s) (pos s + len (buf s)))
  /\ len out = Z.max 0 (len (buf s) - start)
  /\ buf (snd (read None s)) = buf s
  /\ pos (snd (read None s)) - pos s = len (buf s).
Proof.
  cbv zeta. unfold read. cbn [snd buf pos].
  rewrite py_slice_to_end. unfold py_index.
  split; [|split; [|split]].
  - destruct (Z.ltb_spec (pos s) 0); [reflexivity|].
    rewrite skipn_min by assumption. reflexivity.
  - rewrite len_skipn.
    destruct (Z.ltb_spec (pos s) 0); lia.
  - reflexivity.
  - lia.
Qed.

(** ** The slot stubs *)

(** C10.  [pack_slot] returns [None], so it produces no bytes, and
    [unpack_slot] returns [None] and leaves the bytes and the position of
    every buffer as they were; neither raises. *)
Theorem slot_stubs (s : Buffer) :
  pack_slot = Ok PyNone
  /\ fst (unpack_slot s) = Ok PyNone
  /\ buf (snd (unpack_slot s)) = buf s
  /\ pos (snd (unpack_slot s)) = pos s
  /\ step op_unpack_slot s = s /\ step op_pack_slot s = s.
Proof. repeat split. Qed.

(** ** The doubled byte-order character *)

(** [unpack] prepends ['>'] to the format it is given.  The typed
    methods pass ['>B'] and ['>Q'], so [struct.unpack] receives ['>>B'] and
    ['>>Q'] and raises [struct.error], after [read] has moved the
    position. *)
Lemma unpack_prefixed_B (s : Buffer) :
  unpack [ch_gt; ch_B] s = (Raise StructError, mkBuffer (buf s) (pos s + 1)).
Proof. reflexivity. Qed.

Lemma unpack_prefixed_Q (s : Buffer) :
  unpack [ch_gt; ch_Q] s = (Raise StructError, mkBuffer (buf s) (pos s + 8)).
Proof. reflexivity. Qed.

Lemma unpack_varint_struct_error (max_bits : Z) (s : Buffer) :
  unpack_varint max_bits s
  = (Raise StructError, mkBuffer (buf s) (pos s + 1)).
Proof. reflexivity. Qed.

Lemma unpack_string_struct_error (s : Buffer) :
  unpack_string s = (Raise StructError, mkBuffer (buf s) (pos s + 1)).
Proof. reflexivity. Qed.

Lemma unpack_pos_struct_error (s : Buffer) :
  unpack_pos s = (Raise StructError, mkBuffer (buf s) (pos s + 8)).
Proof. reflexivity. Qed.

Lemma from_bytes_struct_error
  (zlib_decompress : bytes -> result bytes) (data : bytes) (comp_thresh : Z) :
  from_bytes zlib_decompress data comp_thresh = Raise StructError.
Proof. reflexivity. Qed.

Lemma rbind_raise {A B} (r : result A) (e : exn) (x : B) :
  rbind r (fun _ => Raise e) <> Ok x.
Proof. destruct r; discriminate. Qed.

(** C1 on the code: [pack_varint(0)] is the byte [00], [unpack_varint]
    raises [struct.error] on it, and for no [v] does the round trip
    return a value. *)
Theorem varint_roundtrip_raises (v : Z) :
  pack_varint 0 32 = Ok [x00]
  /\ varint_roundtrip 0 32 = Raise StructError
  /\ forall r, varint_roundtrip v 32 <> Ok r.
Proof.
  repeat split. intros r. apply rbind_raise.
Qed.

(** The bytes of [-1]: those of [2^33 - 1], five bytes. *)
Lemma pack_varint_minus_one :
  pack_varint (-1) 32 = Ok [xff; xff; xff; xff; x1f].
Proof. reflexivity. Qed.

(** C5 on the code: [pack_pos(-1000, 50, 1000)] is a word of eight bytes,
    [unpack_pos] raises [struct.error] on it, and for no [(x, y, z)] does
    the round trip return a value. *)
Theorem pos_roundtrip_raises (x y z : Z) :
  pack_pos (-1000) 50 1000 = Ok [xff; xff; x06; x00; xc8; x00; x03; xe8]
  /\ pos_roundtrip (-1000) 50 1000 = Raise StructError
  /\ forall r, pos_roundtrip x y z <> Ok r.
Proof.
  repeat split. intros r. apply rbind_raise.
Qed.

(** C8 on the code: [from_bytes] returns no buffer; on the frame [01 41]
    without compression, as on every input and for every threshold, it
    raises [struct.error]. *)
Theorem from_bytes_raises
  (zlib_decompress : bytes -> result bytes) (data : bytes) (comp_thresh : Z) :
  from_bytes zlib_decompress [x01; x41] (-1) = Raise StructError
  /\ from_bytes zlib_decompress data comp_thresh = Raise StructError.
Proof. split; apply from_bytes_struct_error. Qed.

(** The frame of the payload [41] without compression is [01 41];
    [from_bytes] raises on it, and no frame round trip returns. *)
Lemma frame_roundtrip_raises
  (zlib_compress : bytes -> bytes) (zlib_decompress : bytes -> result bytes)
  (payload : bytes) (comp_thresh : Z) :
  to_bytes zlib_compress (new_Buffer [x41]) (-1) = Ok [x01; x41]
  /\ frame_roundtrip zlib_compress zlib_decompress [x41] (-1)
     = Raise StructError
  /\ forall r,
       frame_roundtrip zlib_compress zlib_decompress payload comp_thresh
       <> Ok r.
Proof.
  repeat split. intros r. apply rbind_raise.
Qed.

(** [pack_string('a')] is [01 61]; [unpack_string] raises on it, and no
    string round trip returns. *)
Lemma string_roundtrip_raises (text : str) :
  pack_string [97] = Ok [x01; x61]
  /\ string_roundtrip [97] = Raise StructError
  /\ forall r, string_roundtrip text <> Ok r.
Proof.
  repeat split. intros r. apply rbind_raise.
Qed.

(** ** The cursor and the bytes *)

Lemma len_app {A} (l1 l2 : list A) : len (l1 ++ l2) = len l1 + len l2.
Proof. unfold len. rewrite length_app. lia. Qed.

(** [write] appends and leaves the position; [reset] puts it back to 0;
    [read] adds the requested length to it, whatever the bytes left. *)
Lemma step_write (data : bytes) (s : Buffer) :
  step (op_write data) s = mkBuffer (buf s ++ data) (pos s).
Proof. reflexivity. Qed.

Lemma step_reset (s : Buffer) : step op_reset s = mkBuffer (buf s) 0.
Proof. reflexivity. Qed.

Lemma step_read (length : Z) (s : Buffer) :
  step (op_read (Some length)) s = mkBuffer (buf s) (pos s + length).
Proof. reflexivity. Qed.

(** After a read of a given length from a state within the bounds, the
    cursor is within the bounds exactly when the read was. *)
Lemma read_keeps_bounds_iff (length : Z) (s : Buffer) :
  cursor_in_bounds (step (op_read (Some length)) s)
  <-> - pos s <= length <= len (buf s) - pos s.
Proof.
  rewrite step_read. unfold cursor_in_bounds. cbn [buf pos]. lia.
Qed.







(** Other ways out of the bounds: a read without length after a read, a
    typed unpack on an exhausted buffer, a read of a negative length that
    passes the start. *)
Lemma cursor_after_unbounded_read :
  run [op_read (Some 1); op_read None] (new_Buffer [x01; x02; x03])
  = mkBuffer [x01; x02; x03] 4.
Proof. reflexivity. Qed.

Lemma cursor_after_unpack_varint :
  run [op_unpack_varint 32] (new_Buffer []) = mkBuffer [] 1.
Proof. reflexivity. Qed.

Lemma cursor_after_negative_read :
  run [op_read (Some (-1))] (new_Buffer [x01]) = mkBuffer [x01] (-1).
Proof. reflexivity. Qed.

(** ** Big-endian words *)

Lemma be_decode_snoc (l : bytes) (b : byte) :
  be_decode (l ++ [b]) = be_decode l * 256 + Z_of_byte b.
Proof. unfold be_decode. rewrite fold_left_app. reflexivity. Qed.

Lemma length_be_encode (n : nat) : forall z, length (be_encode n z) = n.
Proof.
  induction n as [|n IH]; intros z; cbn [be_encode]; [reflexivity|].
  rewrite length_app, IH. cbn. lia.
Qed.

Lemma be_decode_encode (n : nat) :
  forall z, 0 <= z < 256 ^ Z.of_nat n -> be_decode (be_encode n z) = z.
Proof.
  induction n as [|n IH]; intros z Hz; cbn [be_encode].
  - change (256 ^ Z.of_nat 0) with 1 in Hz. cbn. lia.
  - rewrite Nat2Z.inj_succ, Z.pow_succ_r in Hz by lia.
    rewrite be_decode_snoc, IH.
    + rewrite Z_of_byte_of_Z by (apply Z.mod_pos_bound; lia).
      pose proof (Z.div_mod z 256 ltac:(lia)). lia.
    + split; [apply Z.div_pos; lia | apply Z.div_lt_upper_bound; lia].
Qed.

(** What [struct.pack('>Q', w)] gives, [struct.unpack('>Q', ...)] reads
    back. *)
Lemma struct_Q_roundtrip (w : Z) :
  0 <= w < 2 ^ 64 ->
  exists data,
    struct_pack_be [ch_Q] [w] = Ok data
    /\ len data = 8
    /\ struct_unpack_be [ch_Q] data = Ok [w].
Proof.
  intros Hw. exists (be_encode 8 w).
  assert (E : (0 <=? w) && (w <? 2 ^ (8 * 8)) = true).
  { apply andb_true_iff; split; [apply Z.leb_le | apply Z.ltb_lt];
      change (2 ^ (8 * 8)) with (2 ^ 64); lia. }
  assert (L : len (be_encode 8 w) = 8)
    by (unfold len; rewrite length_be_encode; reflexivity).
  split; [|split].
  - unfold struct_pack_be.
    cbn [field_sizes code_size rbind pack_fields]. rewrite E.
    change (Z.to_nat 8) with 8%nat. rewrite app_nil_r. reflexivity.
  - exact L.
  - unfold struct_unpack_be.
    cbn [field_sizes code_size rbind sum_Z fold_right]. rewrite L.
    cbn [Z.add Pos.add Z.eqb Pos.eqb unpack_fields].
    change (Z.to_nat 8) with 8%nat.
    rewrite firstn_all2 by (rewrite length_be_encode; lia).
    rewrite be_decode_encode; [reflexivity|].
    change (256 ^ Z.of_nat 8) with (2 ^ 64). lia.
Qed.

(** ** Two's complement on a field *)

Lemma land_pow2_eqb (n k : Z) :
  0 <= k -> 0 <= n < 2 ^ (k + 1) ->
  (Z.land n (Z.shiftl 1 k) =? 0) = (n <? 2 ^ k).
Proof.
  intros Hk Hn.
  rewrite Z.shiftl_1_l.
  assert (Hp : 0 < 2 ^ k) by (apply Z.pow_pos_nonneg; lia).
  assert (Hs : 2 ^ (k + 1) = 2 * 2 ^ k) by (rewrite Z.pow_add_r; lia).
  destruct (Z.ltb_spec n (2 ^ k)) as [Hlt|Hge].
  - apply Z.eqb_eq. apply Z.bits_inj'. intros i Hi.
    rewrite Z.land_spec, Z.bits_0, Z.pow2_bits_eqb by lia.
    destruct (Z.eqb_spec k i) as [<-|]; [|apply andb_false_r].
    rewrite andb_true_r.
    apply Z.testbit_false; [lia|].
    rewrite Z.div_small by lia. reflexivity.
  - apply Z.eqb_neq. intros E.
    assert (B : Z.testbit (Z.land n (2 ^ k)) k = true).
    { rewrite Z.land_spec, Z.pow2_bits_eqb, Z.eqb_refl, andb_true_r by lia.
      apply Z.testbit_true; [lia|].
      replace (n / 2 ^ k) with 1; [reflexivity|].
      apply Z.div_unique with (r := n - 2 ^ k); lia. }
    rewrite E, Z.bits_0 in B. discriminate.
Qed.

Lemma to_twos_complement_range (v bits : Z) :
  1 <= bits -> - 2 ^ (bits - 1) <= v < 2 ^ (bits - 1) ->
  0 <= to_twos_complement v bits < 2 ^ bits
  /\ to_twos_complement v bits = (if v <? 0 then v + 2 ^ bits else v).
Proof.
  intros Hb Hv. unfold to_twos_complement.
  rewrite Z.shiftl_1_l.
  assert (Hs : 2 ^ bits = 2 * 2 ^ (bits - 1)).
  { replace bits with (bits - 1 + 1) at 1 by lia.
    rewrite Z.pow_add_r; lia. }
  destruct (Z.ltb_spec v 0); split; try reflexivity; lia.
Qed.

Lemma from_twos_complement_spec (n bits : Z) :
  1 <= bits -> 0 <= n < 2 ^ bits ->
  from_twos_complement n bits
  = (if n <? 2 ^ (bits - 1) then n else n - 2 ^ bits).
Proof.
  intros Hb Hn. unfold from_twos_complement.
  rewrite land_pow2_eqb by (try replace (bits - 1 + 1) with bits by lia; lia).
  rewrite Z.shiftl_1_l.
  destruct (n <? 2 ^ (bits - 1)); reflexivity.
Qed.

Lemma twos_complement_roundtrip (v bits : Z) :
  1 <= bits -> - 2 ^ (bits - 1) <= v < 2 ^ (bits - 1) ->
  from_twos_complement (to_twos_complement v bits) bits = v.
Proof.
  intros Hb Hv.
  destruct (to_twos_complement_range v bits Hb Hv) as [Hr He].
  rewrite from_twos_complement_spec by assumption.
  rewrite He.
  assert (Hs : 2 ^ bits = 2 * 2 ^ (bits - 1)).
  { replace bits with (bits - 1 + 1) at 1 by lia.
    rewrite Z.pow_add_r; lia. }
  destruct (Z.ltb_spec v 0);
    match goal with |- context [?a <? ?b] => destruct (Z.ltb_spec a b) end;
    lia.
Qed.

(** ** Positions *)

Lemma pos_word_fields (a b c : Z) :
  0 <= a < 2 ^ 26 -> 0 <= b < 2 ^ 12 -> 0 <= c < 2 ^ 26 ->
  let w := 0 + Z.shiftl a 38 + Z.shiftl b 26 + c in
  0 <= w < 2 ^ 64
  /\ Z.shiftr w 38 = a
  /\ Z.land (Z.shiftr w 26) 0xFFF = b
  /\ Z.land w 0x3FFFFFF = c.
Proof.
  intros Ha Hb Hc w. subst w.
  rewrite !Z.shiftl_mul_pow2, !Z.shiftr_div_pow2 by lia.
  change 0xFFF with (Z.ones 12). change 0x3FFFFFF with (Z.ones 26).
  rewrite !Z.land_ones by lia.
  change (2 ^ 26) with 67108864 in *. change (2 ^ 12) with 4096 in *.
  change (2 ^ 38) with 274877906944. change (2 ^ 64) with 18446744073709551616.
  split; [lia|]. split; [|split].
  - symmetry. apply Z.div_unique with (r := b * 67108864 + c); lia.
  - replace ((0 + a * 274877906944 + b * 67108864 + c) / 67108864)
      with (a * 4096 + b)
      by (apply Z.div_unique with (r := c); lia).
    symmetry. apply Z.mod_unique with (q := a); lia.
  - symmetry. apply Z.mod_unique with (q := a * 4096 + b); lia.
Qed.

(** X1.  The part of C5 that holds on the code.  For [x] and [z] in
    [[-2^25, 2^25)] and [y] in [[-2^11, 2^11)], [pack_pos] returns the
    eight bytes of the word [pos_word x y z], [struct.unpack('>Q', ...)]
    reads that word back from them, and the field arithmetic of
    [unpack_pos] takes [(x, y, z)] out of it. *)
Theorem pos_word_roundtrip (x y z : Z) :
  - 2 ^ 25 <= x < 2 ^ 25 -> - 2 ^ 11 <= y < 2 ^ 11 -> - 2 ^ 25 <= z < 2 ^ 25 ->
  (exists data,
      pack_pos x y z = Ok data
      /\ struct_unpack_be [ch_Q] data = Ok [pos_word x y z])
  /\ pos_fields (pos_word x y z) = (x, y, z).
Proof.
  intros Hx Hy Hz.
  destruct (to_twos_complement_range x 26 ltac:(lia) Hx) as [Rx _].
  destruct (to_twos_complement_range y 12 ltac:(lia) Hy) as [Ry _].
  destruct (to_twos_complement_range z 26 ltac:(lia) Hz) as [Rz _].
  destruct (pos_word_fields _ _ _ Rx Ry Rz) as (Hw & Fx & Fy & Fz).
  split.
  - destruct (struct_Q_roundtrip _ Hw) as (data & Hp & _ & Hu).
    exists data. split; assumption.
  - unfold pos_fields, pos_word. rewrite Fx, Fy, Fz.
    rewrite !twos_complement_roundtrip by (assumption || lia).
    reflexivity.
Qed.

Lemma pos_word_roundtrip_witness :
  (exists data,
      pack_pos (- 2 ^ 25) (2 ^ 11 - 1) (2 ^ 25 - 1) = Ok data
      /\ struct_unpack_be [ch_Q] data
         = Ok [pos_word (- 2 ^ 25) (2 ^ 11 - 1) (2 ^ 25 - 1)])
  /\ pos_fields (pos_word (- 2 ^ 25) (2 ^ 11 - 1) (2 ^ 25 - 1))
     = (- 2 ^ 25, 2 ^ 11 - 1, 2 ^ 25 - 1).
Proof.
  apply (pos_word_roundtrip (- 2 ^ 25) (2 ^ 11 - 1) (2 ^ 25 - 1)); simpl; lia.
Defined.

(** X2.  The two's-complement detail of C5, for every width [bits >= 1] and
    every [v] in [[-2^(bits-1), 2^(bits-1))]: a negative [v] is stored as
    [v + 2^bits], a stored field whose bit [bits-1] is set is read as the
    field minus [2^bits], and the two functions are inverse, the bounds
    [-2^(bits-1)] and [2^(bits-1) - 1] included. *)
Theorem twos_complement_fields (v bits : Z) :
  1 <= bits -> - 2 ^ (bits - 1) <= v < 2 ^ (bits - 1) ->
  to_twos_complement v bits = (if v <? 0 then v + 2 ^ bits else v)
  /\ from_twos_complement (to_twos_complement v bits) bits = v
  /\ from_twos_complement (to_twos_complement (- 2 ^ (bits - 1)) bits) bits
     = - 2 ^ (bits - 1)
  /\ from_twos_complement (to_twos_complement (2 ^ (bits - 1) - 1) bits) bits
     = 2 ^ (bits - 1) - 1.
Proof.
  intros Hb Hv.
  assert (Hp : 0 < 2 ^ (bits - 1)) by (apply Z.pow_pos_nonneg; lia).
  split; [apply to_twos_complement_range; assumption|].
  repeat split; apply twos_complement_roundtrip; lia.
Qed.

Lemma twos_complement_fields_witness :
  to_twos_complement (-1000) 26 = (if -1000 <? 0 then -1000 + 2 ^ 26 else -1000)
  /\ from_twos_complement (to_twos_complement (-1000) 26) 26 = -1000
  /\ from_twos_complement (to_twos_complement (- 2 ^ (26 - 1)) 26) 26
     = - 2 ^ (26 - 1)
  /\ from_twos_complement (to_twos_complement (2 ^ (26 - 1) - 1) 26) 26
     = 2 ^ (26 - 1) - 1.
Proof.
  apply (twos_complement_fields (-1000) 26); simpl; lia.
Defined.

(** ** What the pack side emits *)

Lemma pack_varint_nonneg (v max_bits : Z) :
  0 <= v < 2 ^ (max_bits - 1) -> v < 2 ^ 70 ->
  pack_varint v max_bits = Ok (uleb128 v).
Proof.
  intros Hv Hu.
  assert (Hin : check_range v max_bits = Ok tt) by (apply check_range_spec; lia).
  rewrite (pack_varint_in_range _ _ Hin).
  destruct (Z.ltb_spec v 0); [lia|].
  rewrite varint_bytes_uleb128 by lia. reflexivity.
Qed.

Lemma pack_varint_too_large (v max_bits : Z) :
  2 ^ (max_bits - 1) <= v -> pack_varint v max_bits = Raise ValueError.
Proof.
  intros Hv. apply pack_varint_out_of_range.
  destruct (check_range_cases v max_bits) as [H|H]; [|exact H].
  apply check_range_spec in H. lia.
Qed.

Lemma pack_varint_length (n : Z) :
  0 <= n ->
  pack_varint n 32 = if n <? 2 ^ 31 then Ok (uleb128 n) else Raise ValueError.
Proof.
  intros Hn. destruct (Z.ltb_spec n (2 ^ 31)).
  - apply pack_varint_nonneg; change (2 ^ (32 - 1)) with (2 ^ 31); lia.
  - apply pack_varint_too_large. change (2 ^ (32 - 1)) with (2 ^ 31). lia.
Qed.

(** X3.  A non-negative in-range value below [2^70] is emitted in the
    7-bits-per-byte encoding of section 4.3: seven payload bits in the low
    bits of each byte, the continuation flag on every byte but the last. *)
Theorem pack_varint_unsigned (v max_bits : Z) :
  0 <= v < 2 ^ (max_bits - 1) -> v < 2 ^ 70 ->
  pack_varint v max_bits = Ok (uleb128 v).
Proof. exact (pack_varint_nonneg v max_bits). Qed.

Lemma pack_varint_unsigned_witness :
  pack_varint 300 32 = Ok (uleb128 300).
Proof. apply (pack_varint_unsigned 300 32); simpl; lia. Defined.

(** ** The format without the doubled prefix *)

Lemma py_slice_one {A} (l : list A) (p : Z) (a : A) :
  0 <= p -> nth_error l (Z.to_nat p) = Some a ->
  py_slice l p (Some (p + 1)) = [a].
Proof.
  intros Hp Hn.
  assert (Hlt : (Z.to_nat p < length l)%nat)
    by (apply nth_error_Some; congruence).
  destruct (nth_error_split l (Z.to_nat p) Hn) as (l1 & l2 & -> & Hl1).
  unfold py_slice, py_index, len in *.
  destruct (Z.ltb_spec p 0); [lia|].
  destruct (Z.ltb_spec (p + 1) 0); [lia|].
  rewrite Z.min_l by lia. rewrite Z.min_l by lia.
  replace (Z.to_nat (p + 1 - p)) with 1%nat by lia.
  rewrite <- Hl1, skipn_app, skipn_all, Nat.sub_diag.
  reflexivity.
Qed.

(** X4.  [unpack] with the format code alone, as [unpack_rotation] calls it
    with ['fff']: [unpack('B')] returns the byte at the position, as an
    integer, and moves the position by one. *)
Theorem unpack_B_reads_byte (s : Buffer) (b : byte) :
  0 <= pos s -> nth_error (buf s) (Z.to_nat (pos s)) = Some b ->
  unpack [ch_B] s = (Ok (Scalar (Z_of_byte b)), mkBuffer (buf s) (pos s + 1)).
Proof.
  intros Hp Hn. unfold unpack, bind, lift, read.
  cbn [calcsize field_sizes code_size rbind native_end].
  change ((0 + 1 - 1) / 1 * 1 + 1) with 1.
  rewrite (py_slice_one _ _ _ Hp Hn).
  reflexivity.
Qed.

Lemma unpack_B_reads_byte_witness :
  0 <= pos (mkBuffer [x01; x7f] 1)
  /\ unpack [ch_B] (mkBuffer [x01; x7f] 1)
     = (Ok (Scalar 127), mkBuffer [x01; x7f] 2).
Proof.
  split; [discriminate|].
  exact (unpack_B_reads_byte (mkBuffer [x01; x7f] 1) x7f
           ltac:(discriminate) eq_refl).
Defined.

(** ** UTF-8 *)

Lemma utf8_decode_encode_char (c : Z) (b rest : bytes) :
  utf8_encode_char c = Ok b ->
  b <> [] /\ utf8_decode_char (b ++ rest) = Ok (c, rest).
Proof.
  unfold utf8_encode_char. intros H.
  destruct (Z.ltb_spec c 0); [discriminate|].
  destruct (Z.ltb_spec 0x10FFFF c); [discriminate|].
  cbn [orb] in H.
  destruct (Z.ltb_spec c 0x80);
    [|destruct (Z.ltb_spec c 0x800);
      [|destruct (Z.leb_spec 0xD800 c); destruct (Z.leb_spec c 0xDFFF);
        cbn [andb] in H; try discriminate;
        destruct (Z.ltb_spec c 0x10000)]].
  all: match type of H with Ok ?l = Ok _ =>
         assert (E : b = l) by congruence; clear H; subst b end.
  all: (split; [discriminate|]).
  all: repeat rewrite <- app_comm_cons; rewrite app_nil_l.
  all: unfold utf8_decode_char, utf8_cont; cbv beta iota zeta.
  all: rewrite !Z_of_byte_of_Z by div_mod_lia.
  all: decide_tests; cbn [andb negb]; decide_tests; cbn [andb negb].
  all: f_equal; f_equal; div_mod_lia.
Qed.

Lemma utf8_encode_cons (c : Z) (cs : str) (data : bytes) :
  utf8_encode (c :: cs) = Ok data ->
  exists b bs,
    utf8_encode_char c = Ok b /\ utf8_encode cs = Ok bs /\ data = b ++ bs.
Proof.
  cbn [utf8_encode]. intros H.
  destruct (utf8_encode_char c) as [b|]; [|discriminate].
  destruct (utf8_encode cs) as [bs|]; [|discriminate].
  cbn [rbind] in H. exists b, bs. repeat split. congruence.
Qed.

Lemma utf8_encode_length (text : str) :
  forall data, utf8_encode text = Ok data ->
    (length text <= length data)%nat.
Proof.
  induction text as [|c cs IH]; intros data H.
  - cbn. lia.
  - destruct (utf8_encode_cons _ _ _ H) as (b & bs & Hb & Hbs & ->).
    destruct (utf8_decode_encode_char c b [] Hb) as [Hne _].
    specialize (IH bs Hbs). rewrite length_app. cbn [length].
    destruct b; [contradiction | cbn [length]; lia].
Qed.

Lemma utf8_decode_fuel_encode (text : str) :
  forall data n,
    utf8_encode text = Ok data -> (length text <= n)%nat ->
    utf8_decode_fuel n data = Ok text.
Proof.
  induction text as [|c cs IH]; intros data n H Hn.
  - cbn in H. injection H as <-. destruct n; reflexivity.
  - destruct (utf8_encode_cons _ _ _ H) as (b & bs & Hb & Hbs & ->).
    destruct (utf8_decode_encode_char c b bs Hb) as [Hne Hd].
    destruct n as [|n]; [cbn in Hn; lia|].
    destruct (b ++ bs) as [|x l] eqn:E.
    + destruct b; [contradiction | discriminate].
    + cbn [utf8_decode_fuel]. rewrite Hd. cbn [rbind].
      rewrite (IH bs n Hbs) by (cbn in Hn; lia).
      reflexivity.
Qed.

(** The model of Python's codec is coherent: what [encode('utf-8')]
    produces, [decode('utf-8')] reads back. *)
Lemma utf8_decode_encode (text : str) (data : bytes) :
  utf8_encode text = Ok data -> utf8_decode data = Ok text.
Proof.
  intros H. unfold utf8_decode.
  apply utf8_decode_fuel_encode; [exact H|].
  apply utf8_encode_length. exact H.
Qed.

(** ** Strings: the pack side and the read after the prefix *)

Lemma py_slice_suffix {A} (p d : list A) :
  py_slice (p ++ d) (len p) (Some (len p + len d)) = d.
Proof.
  unfold py_slice, py_index. rewrite len_app.
  pose proof (len_nonneg p). pose proof (len_nonneg d).
  destruct (Z.ltb_spec (len p) 0); [lia|].
  destruct (Z.ltb_spec (len p + len d) 0); [lia|].
  rewrite Z.min_l by lia. rewrite Z.min_l by lia.
  unfold len in *.
  rewrite Nat2Z.id.
  replace (Z.to_nat (Z.of_nat (length p) + Z.of_nat (length d)
                     - Z.of_nat (length p))) with (length d) by lia.
  rewrite skipn_app, skipn_all, Nat.sub_diag.
  cbn [skipn app]. apply firstn_all.
Qed.

(** C4, as the source has it.  For every string whose UTF-8 encoding has
    [n] bytes, [pack_string] returns the varint of [n] followed by the
    bytes when [n < 2^15] and raises the range error from [2^15] on (the
    prefix is packed at [max_bits=16], a signed range); and once the
    prefix is passed, the return statement of [unpack_string], which
    reads [n] bytes and decodes them, gives the string back and leaves
    the position at the end. *)
Theorem pack_string_within_limit (text : str) (data : bytes) :
  utf8_encode text = Ok data ->
  let prefix := uleb128 (len data) in
  pack_string text
  = (if len data <? 2 ^ 15 then Ok (prefix ++ data) else Raise ValueError)
  /\ unpack_string_rest (len data) (mkBuffer (prefix ++ data) (len prefix))
     = (Ok text, mkBuffer (prefix ++ data) (len (prefix ++ data))).
Proof.
  intros He prefix. split.
  - unfold pack_string. rewrite He. cbn [rbind].
    pose proof (len_nonneg data).
    destruct (Z.ltb_spec (len data) (2 ^ 15)).
    + rewrite pack_varint_nonneg
        by (change (2 ^ (16 - 1)) with (2 ^ 15); lia).
      reflexivity.
    + rewrite pack_varint_too_large
        by (change (2 ^ (16 - 1)) with (2 ^ 15); lia).
      reflexivity.
  - unfold unpack_string_rest, bind, read, lift. cbn [buf pos].
    rewrite py_slice_suffix, (utf8_decode_encode _ _ He), len_app.
    reflexivity.
Qed.

Lemma pack_string_within_limit_witness :
  utf8_encode [97; 233] = Ok [x61; xc3; xa9]
  /\ pack_string [97; 233] = Ok [x03; x61; xc3; xa9]
  /\ unpack_string_rest 3 (mkBuffer [x03; x61; xc3; xa9] 1)
     = (Ok [97; 233], mkBuffer [x03; x61; xc3; xa9] 4).
Proof.
  split; [reflexivity|].
  exact (pack_string_within_limit [97; 233] [x61; xc3; xa9] eq_refl).
Defined.

(** C4, as the claim words it, fails: a string of [2^15] letters has
    fewer than [2^16] bytes, and [pack_string] rejects it with the range
    error. *)
Lemma string_roundtrip_counterexample :
  string_roundtrip (repeat 97 (Z.to_nat 32768)) = Raise ValueError.
Proof. vm_compute. reflexivity. Qed.

(** ** Frames: the pack side *)

Lemma len_cons {A} (a : A) (l : list A) : len (a :: l) = 1 + len l.
Proof. unfold len. cbn [length]. lia. Qed.

Lemma to_bytes_inner
  (zlib_compress : bytes -> bytes) (payload : bytes) (comp_thresh : Z) :
  let inner :=
    if comp_thresh <? 0 then payload
    else if len payload <? comp_thresh then x00 :: payload
    else uleb128 (len payload) ++ zlib_compress payload in
  to_bytes zlib_compress (new_Buffer payload) comp_thresh
  = if (len payload <? 2 ^ 31) && (len inner <? 2 ^ 31)
    then Ok (uleb128 (len inner) ++ inner)
    else Raise ValueError.
Proof.
  cbv zeta. unfold to_bytes, new_Buffer. cbn [buf].
  pose proof (len_nonneg payload) as Hp.
  rewrite !Z.geb_leb.
  destruct (Z.ltb_spec comp_thresh 0); destruct (Z.leb_spec 0 comp_thresh);
    try lia.
  - cbn [rbind]. rewrite pack_varint_length by assumption.
    destruct (Z.ltb_spec (len payload) (2 ^ 31)); reflexivity.
  - destruct (Z.ltb_spec (len payload) comp_thresh);
      destruct (Z.leb_spec comp_thresh (len payload)); try lia.
    + change (pack_varint 0 32) with (@Ok bytes [x00]).
      cbn [rbind app].
      rewrite pack_varint_length by apply len_nonneg.
      rewrite len_cons.
      destruct (Z.ltb_spec (len payload) (2 ^ 31));
        destruct (Z.ltb_spec (1 + len payload) (2 ^ 31));
        try lia; reflexivity.
    + rewrite (pack_varint_length (len payload)) by assumption.
      destruct (Z.ltb_spec (len payload) (2 ^ 31)); [|reflexivity].
      cbn [rbind andb].
      rewrite pack_varint_length by apply len_nonneg.
      destruct (_ <? _); reflexivity.
Qed.

(** C3, as the source has it.  For every threshold and payload,
    [to_bytes] builds the inner block (the payload when the threshold is
    negative; [00] and the payload when the payload is shorter than the
    threshold; the varint of the payload's length and the compressed
    payload otherwise) and returns the varint of the inner block's length
    followed by the inner block, exactly when the payload's length and
    the inner block's length are both below [2^31]; otherwise it raises
    the range error.  Once the prefix is passed, the read of [from_bytes],
    of as many bytes as the inner block has, gives the inner block
    back. *)
Theorem to_bytes_frame
  (zlib_compress : bytes -> bytes) (payload : bytes) (comp_thresh : Z) :
  let inner :=
    if comp_thresh <? 0 then payload
    else if len payload <? comp_thresh then x00 :: payload
    else uleb128 (len payload) ++ zlib_compress payload in
  let prefix := uleb128 (len inner) in
  to_bytes zlib_compress (new_Buffer payload) comp_thresh
  = (if (len payload <? 2 ^ 31) && (len inner <? 2 ^ 31)
     then Ok (prefix ++ inner)
     else Raise ValueError)
  /\ fst (read (Some (len inner)) (mkBuffer (prefix ++ inner) (len prefix)))
     = Ok inner.
Proof.
  cbv zeta. split.
  - apply to_bytes_inner.
  - unfold read. cbn [fst buf pos]. rewrite py_slice_suffix. reflexivity.
Qed.

Lemma frame_roundtrip_too_long
  (zlib_compress : bytes -> bytes) (zlib_decompress : bytes -> result bytes)
  (payload : bytes) (comp_thresh : Z) :
  len payload = 2 ^ 31 - 1 -> 2 ^ 31 <= comp_thresh ->
  frame_roundtrip zlib_compress zlib_decompress payload comp_thresh
  = Raise ValueError.
Proof.
  intros Hl Ht. unfold frame_roundtrip.
  rewrite to_bytes_inner. cbv zeta.
  destruct (Z.ltb_spec comp_thresh 0); [lia|].
  destruct (Z.ltb_spec (len payload) comp_thresh); [|lia].
  rewrite len_cons.
  destruct (Z.ltb_spec (len payload) (2 ^ 31)); [|lia].
  destruct (Z.ltb_spec (1 + len payload) (2 ^ 31)); [lia|].
  reflexivity.
Qed.

(** C3, as the claim words it, fails: a payload of [2^31 - 1] bytes fits
    the 32-bit varint range, but under a threshold above its length the
    inner block has [2^31] bytes and [to_bytes] raises the range error. *)
Lemma frame_roundtrip_counterexample :
  frame_roundtrip (fun b => b) (fun b => Ok b)
    (repeat x00 (Z.to_nat (2 ^ 31 - 1))) (2 ^ 31)
  = Raise ValueError.
Proof.
  apply frame_roundtrip_too_long; [|apply Z.le_refl].
  unfold len. rewrite repeat_length. apply Z2Nat.id. lia.
Qed.

(** Under the threshold 0 an empty payload takes the compressed branch,
    and its inner block starts with the varint of its length, [00], which
    is also the mark of a literal block. *)
Lemma to_bytes_empty_payload
  (zlib_compress : bytes -> bytes) :
  1 + len (zlib_compress []) < 2 ^ 31 ->
  to_bytes zlib_compress (new_Buffer []) 0
  = Ok (uleb128 (1 + len (zlib_compress [])) ++ x00 :: zlib_compress []).
Proof.
  intros Hl. rewrite to_bytes_inner. cbv zeta.
  change (0 <? 0) with false. change (len (@nil byte) <? 0) with false.
  change (uleb128 (len (@nil byte))) with [x00].
  cbn [app]. rewrite len_cons.
  change (len (@nil byte) <? 2 ^ 31) with true. cbn [andb].
  destruct (Z.ltb_spec (1 + len (zlib_compress [])) (2 ^ 31)); [reflexivity|lia].
Qed.

(* ================================================================== *)
(** * Further properties of the code *)

(** ** Reads and writes *)

Lemma py_slice_forward {A} (l : list A) (p n : Z) :
  0 <= p -> 0 <= n ->
  py_slice l p (Some (p + n)) = firstn (Z.to_nat n) (skipn (Z.to_nat p) l).
Proof.
  intros Hp Hn. unfold py_slice, py_index.
  destruct (Z.ltb_spec p 0); [lia|].
  destruct (Z.ltb_spec (p + n) 0); [lia|].
  pose proof (len_nonneg l) as Hl. unfold len in *.
  destruct (Z.le_gt_cases (Z.of_nat (length l)) p) as [Hge|Hlt].
  - rewrite (Z.min_r p) by lia.
    rewrite !skipn_all2 by lia. rewrite !firstn_nil. reflexivity.
  - rewrite (Z.min_l p) by lia.
    destruct (Z.le_gt_cases (p + n) (Z.of_nat (length l))).
    + rewrite Z.min_l by lia. f_equal. lia.
    + rewrite Z.min_r by lia.
      rewrite !firstn_all2; [reflexivity | |]; rewrite length_skipn; lia.
Qed.

Lemma firstn_plus {A} (a b : nat) (l : list A) :
  firstn (a + b) l = firstn a l ++ firstn b (skipn a l).
Proof.
  revert l. induction a as [|a IH]; intros l; [reflexivity|].
  destruct l as [|x l]; cbn [Nat.add firstn skipn app].
  - rewrite firstn_nil. reflexivity.
  - rewrite IH. reflexivity.
Qed.

(** X5.  A read of a given non-negative length from a non-negative
    position never raises: it returns the bytes from the position on, at
    most [length] of them and fewer (none at or past the end) when the
    buffer runs out, and it advances the position by [length] all the
    same. *)
Theorem read_truncates (s : Buffer) (length : Z) :
  0 <= pos s -> 0 <= length ->
  let out := firstn (Z.to_nat length) (skipn (Z.to_nat (pos s)) (buf s)) in
  read (Some length) s = (Ok out, mkBuffer (buf s) (pos s + length))
  /\ len out = Z.min length (Z.max 0 (len (buf s) - pos s)).
Proof.
  intros Hp Hn. cbv zeta. split.
  - unfold read. rewrite py_slice_forward by assumption. reflexivity.
  - unfold len. rewrite length_firstn, length_skipn. lia.
Qed.

Lemma read_truncates_witness :
  0 <= pos (mkBuffer [x01; x02; x03] 2)
  /\ read (Some 5) (mkBuffer [x01; x02; x03] 2)
     = (Ok [x03], mkBuffer [x01; x02; x03] 7).
Proof.
  split; [discriminate|].
  exact (proj1 (read_truncates (mkBuffer [x01; x02; x03] 2) 5
                  ltac:(discriminate) ltac:(discriminate))).
Defined.

(** X6.  Two reads in a row return what one read of the summed length
    returns, split in two, and leave the same buffer (non-negative
    position and lengths). *)
Theorem reads_concatenate (s : Buffer) (m n : Z) :
  0 <= pos s -> 0 <= m -> 0 <= n ->
  (a <- read (Some m) ;; b <- read (Some n) ;; ret (a ++ b)) s
  = read (Some (m + n)) s.
Proof.
  intros Hp Hm Hn. unfold bind, ret.
  destruct (read_truncates s m Hp Hm) as [-> _].
  destruct (read_truncates (mkBuffer (buf s) (pos s + m)) n
              ltac:(cbn [pos]; lia) Hn) as [-> _].
  destruct (read_truncates s (m + n) Hp ltac:(lia)) as [-> _].
  cbn [buf pos].
  rewrite !Z2Nat.inj_add by lia.
  rewrite firstn_plus, skipn_skipn.
  rewrite (Nat.add_comm (Z.to_nat m)), Z.add_assoc. reflexivity.
Qed.

Lemma reads_concatenate_witness :
  (a <- read (Some 1) ;; b <- read (Some 2) ;; ret (a ++ b))
    (new_Buffer [x01; x02; x03; x04])
  = read (Some (1 + 2)) (new_Buffer [x01; x02; x03; x04]).
Proof.
  apply (reads_concatenate (new_Buffer [x01; x02; x03; x04]) 1 2);
    discriminate.
Defined.

(** X7.  On a buffer that has been read to its end, what is written next
    is what the next read of that many bytes returns, and the buffer is
    again read to its end. *)
Theorem write_then_read (s : Buffer) (data : bytes) :
  pos s = len (buf s) ->
  (_ <- write data ;; read (Some (len data))) s
  = (Ok data, mkBuffer (buf s ++ data) (len (buf s ++ data))).
Proof.
  intros Hp. unfold bind, write, read. cbn [buf pos].
  rewrite Hp, py_slice_suffix, len_app. reflexivity.
Qed.

Lemma write_then_read_witness :
  pos (mkBuffer [x01] 1) = len (buf (mkBuffer [x01] 1))
  /\ (_ <- write [x02; x03] ;; read (Some (len [x02; x03]))) (mkBuffer [x01] 1)
     = (Ok [x02; x03], mkBuffer [x01; x02; x03] 3).
Proof.
  split; [reflexivity|].
  exact (write_then_read (mkBuffer [x01] 1) [x02; x03] eq_refl).
Defined.

(** A buffer whose position is at or past the end stays so under a
    read that does not go backwards, and the read returns no bytes. *)
Lemma read_exhausted (s : Buffer) (length : option Z) :
  len (buf s) <= pos s -> forward length ->
  fst (read length s) = Ok []
  /\ buf (snd (read length s)) = buf s
  /\ len (buf s) <= pos (snd (read length s)).
Proof.
  intros He Hf. pose proof (len_nonneg (buf s)) as Hl.
  destruct length as [n|]; cbn [forward] in Hf.
  - destruct (read_truncates s n ltac:(lia) Hf) as [-> _].
    cbn [fst snd buf pos].
    rewrite skipn_all2 by (unfold len in *; lia).
    rewrite firstn_nil. repeat split. lia.
  - unfold read. cbn [fst snd buf pos].
    rewrite py_slice_to_end. unfold py_index.
    destruct (Z.ltb_spec (pos s) 0); [lia|].
    rewrite Z.min_r by lia.
    rewrite skipn_all2 by (unfold len; lia). repeat split. lia.
Qed.

Lemma run_reads_exhausted (lengths : list (option Z)) :
  forall s, len (buf s) <= pos s -> Forall forward lengths ->
    buf (run (map op_read lengths) s) = buf s
    /\ len (buf s) <= pos (run (map op_read lengths) s).
Proof.
  induction lengths as [|l ls IH]; intros s He Hf.
  - split; [reflexivity | exact He].
  - inversion Hf as [|? ? Hl Hls]; subst.
    destruct (read_exhausted s l He Hl) as (_ & Hb & Hp).
    cbn [map run fold_left]. change (fold_left _ ?o ?x) with (run o x).
    change (step (op_read l) s) with (snd (read l s)).
    destruct (IH (snd (read l s)) ltac:(rewrite Hb; exact Hp) Hls) as [Ib Ip].
    rewrite Ib, Hb in *. split; [reflexivity | exact Ip].
Qed.

(** X8.  After a read without length from a non-negative position, the
    buffer is exhausted: however many reads follow, each without length
    or of a length that is not negative, every one of them returns no
    bytes.  (Only such reads are in between: no write, no reset, no
    negative length.) *)
Theorem read_all_exhausts
  (s : Buffer) (lengths : list (option Z)) (length : option Z) :
  0 <= pos s -> Forall forward lengths -> forward length ->
  fst (read length (run (map op_read lengths) (snd (read None s)))) = Ok [].
Proof.
  intros Hp Hls Hl.
  pose proof (len_nonneg (buf s)) as Hn.
  assert (He : len (buf (snd (read None s))) <= pos (snd (read None s)))
    by (cbn [read snd buf pos]; lia).
  destruct (run_reads_exhausted lengths _ He Hls) as [Hb Hq].
  apply read_exhausted; [rewrite Hb; exact Hq | exact Hl].
Qed.

Lemma read_all_exhausts_witness :
  0 <= pos (mkBuffer [x01; x02] 1)
  /\ Forall forward [Some 1; None; Some 0]
  /\ fst (read (Some 2)
            (run (map op_read [Some 1; None; Some 0])
               (snd (read None (mkBuffer [x01; x02] 1))))) = Ok [].
Proof.
  assert (H : Forall forward [Some 1; None; Some 0])
    by (repeat constructor; discriminate).
  split; [discriminate|]. split; [exact H|].
  exact (read_all_exhausts (mkBuffer [x01; x02] 1) [Some 1; None; Some 0]
           (Some 2) ltac:(discriminate) H ltac:(discriminate)).
Defined.

(** ** The bytes a buffer owns *)

Lemma step_buf (o : op) (s : Buffer) :
  buf (step o s) = buf s ++ written [o].
Proof.
  destruct o as [data | [length|] | | mb | | | | num mb | text | x y z | ];
    cbn [written]; rewrite ?app_nil_r; reflexivity.
Qed.

Lemma written_cons (o : op) (ops : list op) :
  written (o :: ops) = written [o] ++ written ops.
Proof. destruct o; cbn [written]; rewrite ?app_nil_r; reflexivity. Qed.

(** X9.  The bytes are append-only: after any sequence of operations,
    returned or raised, the buffer owns its initial bytes followed by the
    data of the writes, in order, and nothing else; reads and typed
    unpacks never change them, so a reset afterwards gives a buffer that
    replays all of them from position 0. *)
Theorem bytes_append_only (ops : list op) (s : Buffer) :
  buf (run ops s) = buf s ++ written ops
  /\ step op_reset (run ops s) = new_Buffer (buf s ++ written ops).
Proof.
  assert (H : forall ops s, buf (run ops s) = buf s ++ written ops).
  { clear. induction ops as [|o ops IH]; intros s.
    - cbn. rewrite app_nil_r. reflexivity.
    - cbn [run fold_left]. change (fold_left _ ops ?x) with (run ops x).
      rewrite IH, step_buf, (written_cons o ops), app_assoc. reflexivity. }
  split; [apply H|].
  rewrite step_reset, H. reflexivity.
Qed.

(** ** Fixed-width fields: [pack] and [unpack] *)

Lemma field_sizes_gt (f : format) :
  In ch_gt f -> field_sizes f = Raise StructError.
Proof.
  induction f as [|c f IH]; intros Hin; [contradiction|].
  cbn [field_sizes]. destruct c; cbn [code_size rbind]; try reflexivity.
  - rewrite IH; [reflexivity|]. destruct Hin; [discriminate | assumption].
  - rewrite IH; [reflexivity|]. destruct Hin; [discriminate | assumption].
Qed.

Lemma field_sizes_cases (f : format) :
  (exists ns, field_sizes f = Ok ns
              /\ Forall2 (fun c n => code_size c = Ok n) f ns)
  \/ (field_sizes f = Raise StructError /\ In ch_gt f).
Proof.
  induction f as [|c f IH].
  - left. exists []. split; [reflexivity | constructor].
  - cbn [field_sizes].
    destruct c; cbn [code_size rbind].
    + right. split; [reflexivity | now left].
    + destruct IH as [(ns & -> & H) | [-> H]].
      * left. exists (1 :: ns). split; [reflexivity|].
        constructor; [reflexivity | exact H].
      * right. split; [reflexivity | now right].
    + destruct IH as [(ns & -> & H) | [-> H]].
      * left. exists (8 :: ns). split; [reflexivity|].
        constructor; [reflexivity | exact H].
      * right. split; [reflexivity | now right].
Qed.

Lemma code_size_pos (c : fchar) (n : Z) : code_size c = Ok n -> 0 < n.
Proof. destruct c; cbn; intros H; inversion H; lia. Qed.

Lemma pow_256 (n : Z) : 0 <= n -> 256 ^ Z.of_nat (Z.to_nat n) = 2 ^ (8 * n).
Proof.
  intros Hn. rewrite Z2Nat.id by lia.
  change 256 with (2 ^ 8). rewrite <- Z.pow_mul_r by lia. reflexivity.
Qed.

(** The fields packed one after the other are read back one after the
    other. *)
Lemma pack_fields_unpack (ns : list Z) :
  forall vals data,
    Forall (fun n => 0 < n) ns ->
    pack_fields ns vals = Ok data ->
    Forall2 fits ns vals /\ len data = sum_Z ns
    /\ unpack_fields ns data = vals.
Proof.
  induction ns as [|n ns IH]; intros vals data Hpos H.
  - destruct vals; [|discriminate]. cbn in H. inversion H; subst.
    repeat split. constructor.
  - destruct vals as [|v vs]; [discriminate|].
    cbn [pack_fields] in H. inversion Hpos as [|? ? Hn Hns]; subst.
    destruct (Z.leb_spec 0 v); destruct (Z.ltb_spec v (2 ^ (8 * n)));
      cbn [andb] in H; try discriminate.
    destruct (pack_fields ns vs) as [rest|] eqn:E; [|discriminate].
    cbn [rbind] in H. inversion H; subst. clear H.
    destruct (IH vs rest Hns E) as (Hf & Hl & Hu).
    assert (Hlen : length (be_encode (Z.to_nat n) v) = Z.to_nat n)
      by apply length_be_encode.
    split; [|split].
    + constructor; [split; assumption | exact Hf].
    + rewrite len_app, Hl. unfold len. rewrite Hlen.
      change (sum_Z (n :: ns)) with (n + sum_Z ns). lia.
    + cbn [unpack_fields].
      rewrite firstn_app, firstn_all2 by lia.
      rewrite Hlen, Nat.sub_diag, firstn_O, app_nil_r.
      rewrite be_decode_encode by (rewrite pow_256; lia).
      rewrite skipn_app, skipn_all2 by lia.
      rewrite Hlen, Nat.sub_diag. cbn [skipn app].
      rewrite Hu. reflexivity.
Qed.

Lemma pack_fields_fits (ns : list Z) :
  forall vals, Forall2 fits ns vals -> exists data, pack_fields ns vals = Ok data.
Proof.
  induction ns as [|n ns IH]; intros vals H; inversion H; subst.
  - exists []. reflexivity.
  - destruct (IH _ H4) as [rest Hr]. cbn [pack_fields].
    match goal with Hf : fits _ _ |- _ => destruct Hf end.
    destruct (Z.leb_spec 0 y); [|lia].
    destruct (Z.ltb_spec y (2 ^ (8 * n))); [|lia].
    cbn [andb]. rewrite Hr. eexists. reflexivity.
Qed.

Lemma pack_fields_cases (ns vals : list Z) :
  (exists data, pack_fields ns vals = Ok data)
  \/ pack_fields ns vals = Raise StructError.
Proof.
  revert vals. induction ns as [|n ns IH]; intros [|v vs]; cbn [pack_fields];
    try (now right); [left; eexists; reflexivity|].
  destruct ((0 <=? v) && (v <? 2 ^ (8 * n))); [|now right].
  destruct (IH vs) as [[rest ->] | ->]; [left; eexists; reflexivity | now right].
Qed.

Lemma accepts_sizes (f : format) (ns vals : list Z) :
  Forall2 (fun c n => code_size c = Ok n) f ns ->
  (Forall2 accepts f vals <-> Forall2 fits ns vals).
Proof.
  intros Hs. revert vals. induction Hs as [|c n f ns Hc Hs IH]; intros vals.
  - split; intros H; inversion H; constructor.
  - split; intros H; inversion H; subst; constructor.
    + match goal with Ha : accepts _ _ |- _ => destruct Ha as (m & Hm & Hf) end.
      congruence.
    + apply IH. assumption.
    + exists n. split; assumption.
    + apply IH. assumption.
Qed.

Lemma sizes_pos (f : format) (ns : list Z) :
  Forall2 (fun c n => code_size c = Ok n) f ns -> Forall (fun n => 0 < n) ns.
Proof.
  induction 1; constructor; [eapply code_size_pos; eassumption | assumption].
Qed.

Lemma accepts_no_gt (f : format) (vals : list Z) :
  Forall2 accepts f vals -> ~ In ch_gt f.
Proof.
  induction 1 as [|c v f vals Ha _ IH]; intros Hin; [contradiction|].
  destruct Hin as [-> | Hin]; [|exact (IH Hin)].
  destruct Ha as (n & Hn & _). discriminate.
Qed.

(** X10.  [pack] is all or nothing: it returns bytes exactly when the
    format has no byte-order character, there is one value per format
    code and every value fits its field, and then the number of bytes is
    the standard size of the format; in every other case it raises
    [struct.error]. *)
Theorem pack_all_or_nothing (f : format) (vals : list Z) :
  match pack f vals with
  | Ok data => Forall2 accepts f vals /\ calcsize (ch_gt :: f) = Ok (len data)
  | Raise e => e = StructError /\ ~ Forall2 accepts f vals
  end.
Proof.
  unfold pack, struct_pack_be. cbn [calcsize].
  destruct (field_sizes_cases f) as [(ns & -> & Hs) | [-> Hin]]; cbn [rbind].
  - destruct (pack_fields_cases ns vals) as [[data Hd] | Hr].
    + rewrite Hd.
      destruct (pack_fields_unpack ns vals data (sizes_pos _ _ Hs) Hd)
        as (Hf & Hl & _).
      split; [apply (accepts_sizes _ _ _ Hs); exact Hf | rewrite Hl; reflexivity].
    + rewrite Hr. split; [reflexivity|].
      intros Ha. apply (accepts_sizes _ _ _ Hs) in Ha.
      destruct (pack_fields_fits _ _ Ha) as [data Hd]. congruence.
  - split; [reflexivity|].
    intros Ha. exact (accepts_no_gt _ _ Ha Hin).
Qed.

Lemma py_slice_middle {A} (pre d rest : list A) :
  py_slice (pre ++ d ++ rest) (len pre) (Some (len pre + len d)) = d.
Proof.
  rewrite py_slice_forward by apply len_nonneg.
  unfold len. rewrite !Nat2Z.id.
  rewrite skipn_app, skipn_all, Nat.sub_diag. cbn [skipn app].
  rewrite firstn_app, firstn_all, Nat.sub_diag, firstn_O, app_nil_r.
  reflexivity.
Qed.

Lemma struct_unpack_pack (f : format) (vals : list Z) (data : bytes) :
  struct_pack_be f vals = Ok data -> struct_unpack_be f data = Ok vals.
Proof.
  unfold struct_pack_be, struct_unpack_be.
  destruct (field_sizes_cases f) as [(ns & -> & Hs) | [-> _]]; cbn [rbind];
    [|discriminate].
  intros Hd.
  destruct (pack_fields_unpack ns vals data (sizes_pos _ _ Hs) Hd)
    as (_ & Hl & Hu).
  rewrite Hl, Z.eqb_refl, Hu. reflexivity.
Qed.

(** X11.  What [pack] has packed under a format, [unpack] under the same
    format reads back from the position where the bytes start, whatever
    precedes and follows them: the value itself for a format of one
    field, the tuple of the values otherwise; the position ends after the
    bytes.  The format must be one whose size [struct.calcsize] computes
    without alignment padding, since [unpack] sizes its read on the
    format without the byte-order character. *)
Theorem unpack_pack (f : format) (vals : list Z) (data pre rest : bytes) :
  pack f vals = Ok data ->
  calcsize f = Ok (len data) ->
  unpack f (mkBuffer (pre ++ data ++ rest) (len pre))
  = (Ok (unpacked_of vals),
     mkBuffer (pre ++ data ++ rest) (len pre + len data)).
Proof.
  intros Hp Hc. unfold unpack, bind, lift, read. rewrite Hc. cbn [buf pos].
  rewrite py_slice_middle, (struct_unpack_pack _ _ _ Hp).
  destruct vals as [|v [|w vs]]; reflexivity.
Qed.

Lemma unpack_pack_witness :
  pack [ch_Q; ch_B] [258; 7] = Ok [x00; x00; x00; x00; x00; x00; x01; x02; x07]
  /\ unpack [ch_Q; ch_B]
       (mkBuffer ([xff] ++ [x00; x00; x00; x00; x00; x00; x01; x02; x07]
                        ++ [xee]) 1)
     = (Ok (Tuple [258; 7]),
        mkBuffer ([xff] ++ [x00; x00; x00; x00; x00; x00; x01; x02; x07]
                        ++ [xee]) 10).
Proof.
  split; [reflexivity|].
  exact (unpack_pack [ch_Q; ch_B] [258; 7]
           [x00; x00; x00; x00; x00; x00; x01; x02; x07] [xff] [xee]
           eq_refl eq_refl).
Defined.

Lemma sum_Z_nonneg (ns : list Z) :
  Forall (fun n => 0 < n) ns -> 0 <= sum_Z ns.
Proof.
  induction 1 as [|n ns Hn _ IH]; [cbn; lia|].
  change (sum_Z (n :: ns)) with (n + sum_Z ns). lia.
Qed.

(** X12.  When the native size of a format exceeds its standard size
    (alignment padding, as in ['BQ']: 16 against 9), [unpack] reads the
    native size and hands the bytes to [struct.unpack], which wants the
    standard size: on a buffer that holds that many bytes from the
    position on, [unpack] raises [struct.error], the position moved by
    the native size. *)
Theorem unpack_padded_format (f : format) (s : Buffer) (native std : Z) :
  calcsize f = Ok native ->
  calcsize (ch_gt :: f) = Ok std ->
  std < native ->
  0 <= pos s -> pos s + native <= len (buf s) ->
  unpack f s = (Raise StructError, mkBuffer (buf s) (pos s + native)).
Proof.
  intros Hn Hs Hlt Hp Hl. unfold unpack, bind, lift.
  rewrite Hn.
  assert (Hstd : 0 <= std).
  { cbn [calcsize] in Hs.
    destruct (field_sizes_cases f) as [(ns & E & Hf) | [E _]];
      rewrite E in Hs; cbn [rbind] in Hs; [|discriminate].
    inversion Hs; subst. apply sizes_pos in Hf.
    apply sum_Z_nonneg. exact Hf. }
  destruct (read_truncates s native Hp ltac:(lia)) as [-> Hlen].
  cbv zeta in Hlen.
  unfold struct_unpack_be.
  cbn [calcsize] in Hs.
  destruct (field_sizes f) as [ns|]; cbn [rbind] in Hs |- *; [|discriminate].
  inversion Hs; subst.
  rewrite Hlen.
  destruct (Z.eqb_spec (Z.min native (Z.max 0 (len (buf s) - pos s)))
              (sum_Z ns)); [lia | reflexivity].
Qed.

Lemma unpack_padded_format_witness :
  calcsize [ch_B; ch_Q] = Ok 16
  /\ calcsize [ch_gt; ch_B; ch_Q] = Ok 9
  /\ unpack [ch_B; ch_Q] (new_Buffer (repeat x00 16))
     = (Raise StructError, mkBuffer (repeat x00 16) 16).
Proof.
  split; [reflexivity|]. split; [reflexivity|].
  exact (unpack_padded_format [ch_B; ch_Q] (new_Buffer (repeat x00 16)) 16 9
           eq_refl eq_refl eq_refl ltac:(discriminate) ltac:(discriminate)).
Defined.

(** X13.  A format that contains the byte-order character ['>'], first or
    anywhere, is rejected with [struct.error] by [pack], by [unpack] and by
    [unpack_array], which already put one in front; [unpack_array] has then
    not touched the buffer. *)
Theorem prefixed_format_rejected
  (f : format) (vals : list Z) (length : Z) (s : Buffer) :
  In ch_gt f ->
  pack f vals = Raise StructError
  /\ fst (unpack f s) = Raise StructError
  /\ unpack_array f length s = (Raise StructError, s).
Proof.
  intros Hin. split; [|split].
  - unfold pack, struct_pack_be. rewrite (field_sizes_gt _ Hin). reflexivity.
  - unfold unpack, bind, lift.
    destruct (calcsize f) as [size|e] eqn:Hc.
    + unfold read, struct_unpack_be.
      rewrite (field_sizes_gt _ Hin). reflexivity.
    + cbn [fst]. f_equal.
      unfold calcsize in Hc.
      destruct f as [|c g]; [contradiction|].
      destruct c;
        match type of Hc with
        | rbind (field_sizes ?h) _ = _ =>
            destruct (field_sizes_cases h) as [(ns & E & _) | [E _]];
            rewrite E in Hc; cbn [rbind] in Hc; congruence
        end.
  - unfold unpack_array, bind, lift. cbn [calcsize].
    rewrite (field_sizes_gt _ Hin). reflexivity.
Qed.

Lemma prefixed_format_rejected_witness :
  In ch_gt [ch_gt; ch_B]
  /\ pack [ch_gt; ch_B] [1] = Raise StructError
  /\ fst (unpack [ch_gt; ch_B] (new_Buffer [x01])) = Raise StructError
  /\ unpack_array [ch_gt; ch_B] 1 (new_Buffer [x01])
     = (Raise StructError, new_Buffer [x01]).
Proof.
  split; [now left|].
  exact (prefixed_format_rejected [ch_gt; ch_B] [1] 1 (new_Buffer [x01])
           (or_introl eq_refl)).
Defined.

(** ** Arrays *)

Lemma str_mul_single (c : fchar) (n : Z) :
  str_mul [c] n = repeat c (Z.to_nat n).
Proof.
  unfold str_mul. induction (Z.to_nat n) as [|k IH]; [reflexivity|].
  cbn [repeat concat app]. rewrite IH. reflexivity.
Qed.

Lemma field_sizes_repeat (c : fchar) (sz : Z) (k : nat) :
  code_size c = Ok sz -> field_sizes (repeat c k) = Ok (repeat sz k).
Proof.
  intros Hc. induction k as [|k IH]; [reflexivity|].
  cbn [repeat field_sizes]. rewrite Hc, IH. reflexivity.
Qed.

Lemma sum_Z_repeat (sz : Z) (k : nat) : sum_Z (repeat sz k) = sz * Z.of_nat k.
Proof.
  induction k as [|k IH]; [cbn; lia|].
  cbn [repeat]. change (sum_Z (sz :: repeat sz k)) with (sz + sum_Z (repeat sz k)).
  rewrite IH. lia.
Qed.

Lemma Forall2_repeat_fits (sz : Z) (array : list Z) :
  Forall (fits sz) array -> Forall2 fits (repeat sz (length array)) array.
Proof. induction 1; cbn [length repeat]; constructor; assumption. Qed.

(** X14.  An array of values that all fit the one-code format [c] goes
    through [pack_array] and comes back from [unpack_array] with the same
    format and the array's length, whatever precedes and follows its
    bytes in the buffer; the position ends after them. *)
Theorem array_roundtrip
  (c : fchar) (sz : Z) (array : list Z) (pre rest : bytes) :
  code_size c = Ok sz ->
  Forall (fits sz) array ->
  exists data,
    pack_array [c] array = Ok data
    /\ len data = sz * len array
    /\ unpack_array [c] (len array) (mkBuffer (pre ++ data ++ rest) (len pre))
       = (Ok array, mkBuffer (pre ++ data ++ rest) (len pre + len data)).
Proof.
  intros Hc Hfit.
  pose proof (code_size_pos _ _ Hc) as Hsz.
  assert (Hfs : field_sizes (str_mul [c] (len array))
                = Ok (repeat sz (length array))).
  { rewrite str_mul_single. unfold len. rewrite Nat2Z.id.
    apply field_sizes_repeat. exact Hc. }
  destruct (pack_fields_fits _ _ (Forall2_repeat_fits _ _ Hfit)) as [data Hd].
  assert (Hpos : Forall (fun n => 0 < n) (repeat sz (length array)))
    by (apply Forall_forall; intros x Hx; apply repeat_spec in Hx; lia).
  destruct (pack_fields_unpack _ _ _ Hpos Hd) as (_ & Hl & Hu).
  rewrite sum_Z_repeat in Hl.
  assert (Hp : pack_array [c] array = Ok data).
  { unfold pack_array, struct_pack_be. rewrite Hfs. exact Hd. }
  exists data. split; [exact Hp|]. split; [exact Hl|].
  unfold unpack_array, bind, lift, read. cbn [calcsize field_sizes].
  rewrite Hc. cbn [rbind sum_Z fold_right buf pos].
  replace ((sz + 0) * len array) with (len data) by (unfold len in *; lia).
  rewrite py_slice_middle.
  rewrite (struct_unpack_pack _ _ _ Hp). reflexivity.
Qed.

Lemma array_roundtrip_witness :
  exists data,
    pack_array [ch_B] [1; 2; 255] = Ok data
    /\ len data = 1 * len [1; 2; 255]
    /\ unpack_array [ch_B] (len [1; 2; 255])
         (mkBuffer ([x09] ++ data ++ [x08]) (len [x09]))
       = (Ok [1; 2; 255],
          mkBuffer ([x09] ++ data ++ [x08]) (len [x09] + len data)).
Proof.
  apply (array_roundtrip ch_B 1 [1; 2; 255] [x09] [x08] eq_refl).
  repeat constructor; discriminate.
Defined.

(** X15.  [unpack_array] with a length that is zero or negative returns
    the empty list and moves the position backwards by the size of the
    format times the length, as long as that does not pass the start. *)
Theorem unpack_array_nonpositive (f : format) (length size : Z) (s : Buffer) :
  calcsize (ch_gt :: f) = Ok size ->
  length <= 0 ->
  0 <= pos s + size * length ->
  unpack_array f length s = (Ok [], mkBuffer (buf s) (pos s + size * length)).
Proof.
  intros Hc Hn Hp. unfold unpack_array, bind, lift, read.
  rewrite Hc. cbn [buf pos].
  assert (Hsz : 0 <= size).
  { cbn [calcsize] in Hc.
    destruct (field_sizes_cases f) as [(ns & E & Hf) | [E _]];
      rewrite E in Hc; cbn [rbind] in Hc; [|discriminate].
    inversion Hc; subst. apply sum_Z_nonneg, (sizes_pos _ _ Hf). }
  assert (Hle : size * length <= 0) by nia.
  assert (Hs : py_slice (buf s) (pos s) (Some (pos s + size * length)) = []).
  { unfold py_slice, py_index.
    destruct (Z.ltb_spec (pos s) 0); [lia|].
    destruct (Z.ltb_spec (pos s + size * length) 0); [lia|].
    replace (Z.to_nat _) with 0%nat by lia. reflexivity. }
  rewrite Hs. unfold str_mul.
  replace (Z.to_nat length) with 0%nat by lia.
  reflexivity.
Qed.

Lemma unpack_array_nonpositive_witness :
  calcsize [ch_gt; ch_Q] = Ok 8
  /\ unpack_array [ch_Q] (-1) (mkBuffer (repeat x01 12) 10)
     = (Ok [], mkBuffer (repeat x01 12) (10 + 8 * -1)).
Proof.
  split; [reflexivity|].
  exact (unpack_array_nonpositive [ch_Q] (-1) 8 (mkBuffer (repeat x01 12) 10)
           eq_refl ltac:(discriminate) ltac:(discriminate)).
Defined.

(** X16.  [unpack_array] on a buffer that holds fewer bytes than the
    array needs raises [struct.error], and the position has moved by the
    whole size all the same, past the end. *)
Theorem unpack_array_short
  (c : fchar) (sz length : Z) (s : Buffer) :
  code_size c = Ok sz ->
  0 < length ->
  0 <= pos s ->
  len (buf s) - pos s < sz * length ->
  unpack_array [c] length s
  = (Raise StructError, mkBuffer (buf s) (pos s + sz * length)).
Proof.
  intros Hc Hn Hp Hshort.
  pose proof (code_size_pos _ _ Hc) as Hsz.
  unfold unpack_array, bind, lift. cbn [calcsize field_sizes].
  rewrite Hc. cbn [rbind sum_Z fold_right].
  replace (sz + 0) with sz by lia.
  destruct (read_truncates s (sz * length) Hp ltac:(nia)) as [-> Hlen].
  cbv zeta in Hlen.
  unfold struct_unpack_be.
  rewrite str_mul_single, (field_sizes_repeat _ _ _ Hc). cbn [rbind].
  rewrite sum_Z_repeat, Z2Nat.id, Hlen by lia.
  destruct (Z.eqb_spec (Z.min (sz * length) (Z.max 0 (len (buf s) - pos s)))
              (sz * length)); [lia | reflexivity].
Qed.

Lemma unpack_array_short_witness :
  unpack_array [ch_Q] 2 (new_Buffer (repeat x01 15))
  = (Raise StructError, mkBuffer (repeat x01 15) (0 + 8 * 2)).
Proof.
  exact (unpack_array_short ch_Q 8 2 (new_Buffer (repeat x01 15))
           eq_refl eq_refl ltac:(discriminate) eq_refl).
Defined.

(** ** UUIDs *)

(** X17.  [unpack_uuid] reads 16 bytes: when the buffer holds them from
    the position on, it returns the UUID whose 128-bit integer is their
    big-endian value; when fewer are left, [uuid.UUID] raises
    [ValueError]; the position has moved by 16 in both cases. *)
Theorem unpack_uuid_bytes (s : Buffer) :
  0 <= pos s ->
  unpack_uuid s
  = ((if pos s + 16 <=? len (buf s)
      then Ok (be_decode (firstn 16 (skipn (Z.to_nat (pos s)) (buf s))))
      else Raise ValueError),
     mkBuffer (buf s) (pos s + 16)).
Proof.
  intros Hp. unfold unpack_uuid, bind, lift.
  destruct (read_truncates s 16 Hp ltac:(lia)) as [-> Hlen].
  cbv zeta in Hlen. unfold UUID_of_bytes. rewrite Hlen.
  change (Z.to_nat 16) with 16%nat.
  destruct (Z.leb_spec (pos s + 16) (len (buf s)));
    destruct (Z.eqb_spec (Z.min 16 (Z.max 0 (len (buf s) - pos s))) 16);
    try lia; reflexivity.
Qed.

Lemma unpack_uuid_bytes_witness :
  0 <= pos (new_Buffer (repeat x00 15 ++ [x2a]))
  /\ unpack_uuid (new_Buffer (repeat x00 15 ++ [x2a]))
     = (Ok 42, mkBuffer (repeat x00 15 ++ [x2a]) 16).
Proof.
  split; [discriminate|].
  exact (unpack_uuid_bytes (new_Buffer (repeat x00 15 ++ [x2a]))
           ltac:(discriminate)).
Defined.

(** X18.  Every 128-bit integer comes back from [unpack_uuid] out of its
    16 big-endian bytes, the form [UUID.bytes] has, whatever precedes and
    follows them. *)
Theorem unpack_uuid_roundtrip (u : Z) (pre rest : bytes) :
  0 <= u < 2 ^ 128 ->
  unpack_uuid (mkBuffer (pre ++ be_encode 16 u ++ rest) (len pre))
  = (Ok u, mkBuffer (pre ++ be_encode 16 u ++ rest) (len pre + 16)).
Proof.
  intros Hu. unfold unpack_uuid, bind, lift, read. cbn [buf pos].
  assert (Hl : len (be_encode 16 u) = 16)
    by (unfold len; rewrite length_be_encode; reflexivity).
  rewrite <- Hl at 1. rewrite py_slice_middle.
  unfold UUID_of_bytes. rewrite Hl. cbn [Z.eqb Pos.eqb].
  rewrite be_decode_encode; [reflexivity|].
  change (256 ^ Z.of_nat 16) with (2 ^ 128). exact Hu.
Qed.

Lemma unpack_uuid_roundtrip_witness :
  0 <= 2 ^ 128 - 1 < 2 ^ 128
  /\ unpack_uuid (mkBuffer ([x01] ++ be_encode 16 (2 ^ 128 - 1) ++ []) (len [x01]))
     = (Ok (2 ^ 128 - 1),
        mkBuffer ([x01] ++ be_encode 16 (2 ^ 128 - 1) ++ []) (len [x01] + 16)).
Proof.
  assert (H : 0 <= 2 ^ 128 - 1 < 2 ^ 128) by lia.
  split; [exact H|].
  exact (unpack_uuid_roundtrip (2 ^ 128 - 1) [x01] [] H).
Defined.

(** ** The size and the shape of a varint *)

Lemma varint_bytes_length (n : nat) (num : Z) :
  (1 <= length (varint_bytes (S n) num) <= S n)%nat.
Proof.
  revert num. induction n as [|n IH]; intros num.
  - cbn [varint_bytes]. destruct (_ =? 0); cbn [length]; lia.
  - change (varint_bytes (S (S n)) num)
      with (byte_of_Z ((if Z.shiftr num 7 >? 0 then 128 else 0) + num mod 128)
              :: (if Z.shiftr num 7 =? 0 then []
                  else varint_bytes (S n) (Z.shiftr num 7))).
    destruct (Z.shiftr num 7 =? 0); cbn [length]; [lia|].
    specialize (IH (Z.shiftr num 7)). lia.
Qed.

Lemma varint_bytes_short (k : nat) :
  forall n num,
    0 <= num < 2 ^ (7 * Z.of_nat (S k)) ->
    (length (varint_bytes (S n) num) <= S k)%nat.
Proof.
  induction k as [|k IH]; intros n num Hnum.
  - cbn [varint_bytes]. rewrite Z.shiftr_div_pow2 by lia.
    change (2 ^ (7 * Z.of_nat 1)) with 128 in Hnum. change (2 ^ 7) with 128.
    rewrite Z.div_small by lia. cbn [Z.eqb length]. lia.
  - cbn [varint_bytes].
    destruct (Z.shiftr num 7 =? 0); cbn [length]; [lia|].
    destruct n as [|n]; [cbn [varint_bytes length]; lia|].
    assert (H : 0 <= Z.shiftr num 7 < 2 ^ (7 * Z.of_nat (S k))).
    { rewrite Z.shiftr_div_pow2 by lia. change (2 ^ 7) with 128.
      split; [apply Z.div_pos; lia|].
      apply Z.div_lt_upper_bound; [lia|].
      replace (7 * Z.of_nat (S (S k))) with (7 + 7 * Z.of_nat (S k)) in Hnum
        by lia.
      rewrite Z.pow_add_r in Hnum by lia. change (2 ^ 7) with 128 in Hnum.
      lia. }
    specialize (IH n _ H). lia.
Qed.

(** X19.  Whenever [pack_varint] returns, it returns between 1 and 10
    bytes, and at most 5 for a value of the 32-bit range
    [[-2^31, 2^31)], negative values included. *)
Theorem pack_varint_size (v max_bits : Z) (data : bytes) :
  pack_varint v max_bits = Ok data ->
  1 <= len data
  <= (if (- 2 ^ 31 <=? v) && (v <? 2 ^ 31) then 5 else 10).
Proof.
  intros H.
  destruct (check_range_cases v max_bits) as [Hc|Hc].
  2:{ rewrite (pack_varint_out_of_range _ _ Hc) in H. discriminate. }
  rewrite (pack_varint_in_range _ _ Hc), fold_constant_value in H.
  assert (E : data = varint_bytes 10 (if v <? 0 then v + 2 ^ 33 else v))
    by congruence.
  clear H. subst data.
  remember (if v <? 0 then v + 2 ^ 33 else v) as num eqn:Enum.
  pose proof (varint_bytes_length 9 num) as Hb.
  assert (Hs : - 2 ^ 31 <= v < 2 ^ 31 ->
               (length (varint_bytes 10 num) <= 5)%nat).
  { intros Hr. apply (varint_bytes_short 4 9).
    change (2 ^ (7 * Z.of_nat 5)) with (2 ^ 35).
    subst num. destruct (Z.ltb_spec v 0); lia. }
  unfold len.
  remember (length (varint_bytes 10 num)) as L eqn:EL. clear EL Enum.
  destruct (Z.leb_spec (- 2 ^ 31) v); destruct (Z.ltb_spec v (2 ^ 31));
    cbn [andb]; lia.
Qed.

Lemma pack_varint_size_witness :
  pack_varint (-1) 32 = Ok [xff; xff; xff; xff; x1f]
  /\ 1 <= len [xff; xff; xff; xff; x1f]
     <= (if (- 2 ^ 31 <=? -1) && (-1 <? 2 ^ 31) then 5 else 10).
Proof.
  split; [reflexivity|].
  exact (pack_varint_size (-1) 32 [xff; xff; xff; xff; x1f] eq_refl).
Defined.

Lemma byte_of_Z_inj (a b : Z) :
  0 <= a < 256 -> 0 <= b < 256 -> byte_of_Z a = byte_of_Z b -> a = b.
Proof.
  intros Ha Hb H. rewrite <- (Z_of_byte_of_Z a Ha), <- (Z_of_byte_of_Z b Hb), H.
  reflexivity.
Qed.

Lemma varint_bytes_inj (n : nat) :
  forall u w,
    0 <= u < 2 ^ (7 * Z.of_nat n) -> 0 <= w < 2 ^ (7 * Z.of_nat n) ->
    varint_bytes n u = varint_bytes n w -> u = w.
Proof.
  induction n as [|n IH]; intros u w Hu Hw H.
  - change (2 ^ (7 * Z.of_nat 0)) with 1 in *. lia.
  - cbn [varint_bytes] in H.
    rewrite !Z.shiftr_div_pow2 in H by lia. change (2 ^ 7) with 128 in H.
    assert (Hq : forall x, 0 <= x < 2 ^ (7 * Z.of_nat (S n)) ->
                           0 <= x / 128 < 2 ^ (7 * Z.of_nat n)).
    { intros x Hx. split; [apply Z.div_pos; lia|].
      apply Z.div_lt_upper_bound; [lia|].
      replace (7 * Z.of_nat (S n)) with (7 + 7 * Z.of_nat n) in Hx by lia.
      rewrite Z.pow_add_r in Hx by lia. change (2 ^ 7) with 128 in Hx. lia. }
    pose proof (Hq u Hu) as Hu'. pose proof (Hq w Hw) as Hw'.
    pose proof (Z.mod_pos_bound u 128 ltac:(lia)) as Mu.
    pose proof (Z.mod_pos_bound w 128 ltac:(lia)) as Mw.
    pose proof (Z.div_mod u 128 ltac:(lia)) as Du.
    pose proof (Z.div_mod w 128 ltac:(lia)) as Dw.
    injection H as Hhead Htail.
    apply byte_of_Z_inj in Hhead;
      [|destruct (u / 128 >? 0); lia | destruct (w / 128 >? 0); lia].
    destruct (Z.gtb_spec (u / 128) 0); destruct (Z.gtb_spec (w / 128) 0);
      try lia.
    destruct (Z.eqb_spec (u / 128) 0); [lia|].
    destruct (Z.eqb_spec (w / 128) 0); [lia|].
    specialize (IH _ _ Hu' Hw' Htail). lia.
Qed.

(** X20.  At a width of at most 33 bits (the default 32 included)
    [pack_varint] is injective on its range: two in-range values with the
    same bytes are equal, so the encoding loses nothing. *)
Theorem pack_varint_injective (v w max_bits : Z) (data : bytes) :
  max_bits <= 33 ->
  pack_varint v max_bits = Ok data ->
  pack_varint w max_bits = Ok data ->
  v = w.
Proof.
  intros Hb Hv Hw.
  assert (R : forall x d, pack_varint x max_bits = Ok d ->
              - 2 ^ 32 <= x < 2 ^ 32
              /\ d = varint_bytes 10 (if x <? 0 then x + 2 ^ 33 else x)).
  { intros x d Hx.
    destruct (check_range_cases x max_bits) as [Hc|Hc].
    2:{ rewrite (pack_varint_out_of_range _ _ Hc) in Hx. discriminate. }
    rewrite (pack_varint_in_range _ _ Hc) in Hx.
    apply check_range_spec in Hc.
    assert (2 ^ (max_bits - 1) <= 2 ^ 32).
    { destruct (Z.le_gt_cases 0 (max_bits - 1)).
      - apply Z.pow_le_mono_r; lia.
      - rewrite Z.pow_neg_r by lia. lia. }
    split; [lia|]. rewrite fold_constant_value in Hx. congruence. }
  destruct (R _ _ Hv) as [Rv Ev]. destruct (R _ _ Hw) as [Rw Ew].
  assert (E : (if v <? 0 then v + 2 ^ 33 else v)
              = (if w <? 0 then w + 2 ^ 33 else w)).
  { apply (varint_bytes_inj 10); [| |congruence];
      change (2 ^ (7 * Z.of_nat 10)) with (2 ^ 70);
      match goal with |- context [?a <? 0] => destruct (Z.ltb_spec a 0) end;
      lia. }
  destruct (Z.ltb_spec v 0); destruct (Z.ltb_spec w 0); lia.
Qed.

Lemma pack_varint_injective_witness :
  pack_varint (-5) 32 = pack_varint (-5) 32 /\ -5 = -5.
Proof.
  split; [reflexivity|].
  exact (pack_varint_injective (-5) (-5) 32 [xfb; xff; xff; xff; x1f]
           ltac:(discriminate) eq_refl eq_refl).
Defined.

(** X21.  From 34 bits on the fold of negative numbers collides with the
    positive range: a negative value not below [-2^33] and the value
    [2^33] above it, when both are in range, get the same bytes. *)
Theorem pack_varint_collision (v max_bits : Z) :
  - 2 ^ 33 <= v < 0 ->
  - 2 ^ (max_bits - 1) <= v ->
  v + 2 ^ 33 < 2 ^ (max_bits - 1) ->
  pack_varint v max_bits = pack_varint (v + 2 ^ 33) max_bits
  /\ exists data, pack_varint v max_bits = Ok data.
Proof.
  intros Hv Hlo Hhi.
  assert (Hc1 : check_range v max_bits = Ok tt)
    by (apply check_range_spec; lia).
  assert (Hc2 : check_range (v + 2 ^ 33) max_bits = Ok tt)
    by (apply check_range_spec; lia).
  rewrite (pack_varint_in_range _ _ Hc1), (pack_varint_in_range _ _ Hc2).
  rewrite fold_constant_value.
  destruct (Z.ltb_spec v 0); [|lia].
  destruct (Z.ltb_spec (v + 2 ^ 33) 0); [lia|].
  split; [reflexivity | eexists; reflexivity].
Qed.

Lemma pack_varint_collision_witness :
  pack_varint (-1) 35 = pack_varint (-1 + 2 ^ 33) 35
  /\ exists data, pack_varint (-1) 35 = Ok data.
Proof.
  apply (pack_varint_collision (-1) 35); simpl; lia.
Defined.

Lemma continues_byte (flag : bool) (r : Z) :
  0 <= r < 128 ->
  continues (byte_of_Z ((if flag then 128 else 0) + r)) = flag.
Proof.
  intros Hr. unfold continues.
  rewrite Z_of_byte_of_Z by (destruct flag; lia).
  destruct flag; [apply Z.leb_le | apply Z.leb_gt]; lia.
Qed.

Lemma varint_bytes_delimited (n : nat) :
  forall u, 0 <= u < 2 ^ (7 * Z.of_nat (S n)) ->
    exists init last,
      varint_bytes (S n) u = init ++ [last]
      /\ forallb continues init = true /\ continues last = false.
Proof.
  induction n as [|n IH]; intros u Hu.
  - change (2 ^ (7 * Z.of_nat 1)) with 128 in Hu.
    exists [], (byte_of_Z (0 + u mod 128)). cbn [varint_bytes].
    rewrite Z.shiftr_div_pow2 by lia. change (2 ^ 7) with 128.
    rewrite Z.div_small by lia. cbn [Z.gtb Z.compare Z.eqb app forallb].
    repeat split.
    apply (continues_byte false). apply Z.mod_pos_bound. lia.
  - change (varint_bytes (S (S n)) u)
      with (byte_of_Z ((if Z.shiftr u 7 >? 0 then 128 else 0) + u mod 128)
              :: (if Z.shiftr u 7 =? 0 then []
                  else varint_bytes (S n) (Z.shiftr u 7))).
    rewrite Z.shiftr_div_pow2 by lia. change (2 ^ 7) with 128.
    pose proof (Z.mod_pos_bound u 128 ltac:(lia)) as Hm.
    assert (Hq : 0 <= u / 128 < 2 ^ (7 * Z.of_nat (S n))).
    { split; [apply Z.div_pos; lia|].
      apply Z.div_lt_upper_bound; [lia|].
      replace (7 * Z.of_nat (S (S n))) with (7 + 7 * Z.of_nat (S n)) in Hu
        by lia.
      rewrite Z.pow_add_r in Hu by lia. change (2 ^ 7) with 128 in Hu. lia. }
    destruct (Z.eqb_spec (u / 128) 0) as [E|E].
    + exists [], (byte_of_Z ((if u / 128 >? 0 then 128 else 0) + u mod 128)).
      repeat split. rewrite E. apply (continues_byte false). exact Hm.
    + destruct (IH _ Hq) as (init & last & -> & Hi & Hl).
      exists (byte_of_Z ((if u / 128 >? 0 then 128 else 0) + u mod 128) :: init),
        last.
      split; [reflexivity|]. split; [|exact Hl].
      cbn [forallb]. rewrite Hi, andb_true_r.
      destruct (Z.gtb_spec (u / 128) 0); [|lia].
      apply (continues_byte true). exact Hm.
Qed.

(** X22.  For a value from [-2^33] up to, but not including, [2^70] the
    bytes [pack_varint] returns delimit themselves: every byte but the
    last carries the continuation flag and the last does not. *)
Theorem pack_varint_self_delimiting (v max_bits : Z) (data : bytes) :
  pack_varint v max_bits = Ok data ->
  - 2 ^ 33 <= v < 2 ^ 70 ->
  exists init last,
    data = init ++ [last]
    /\ forallb continues init = true /\ continues last = false.
Proof.
  intros H Hv.
  destruct (check_range_cases v max_bits) as [Hc|Hc].
  2:{ rewrite (pack_varint_out_of_range _ _ Hc) in H. discriminate. }
  rewrite (pack_varint_in_range _ _ Hc), fold_constant_value in H.
  assert (E : data = varint_bytes 10 (if v <? 0 then v + 2 ^ 33 else v))
    by congruence.
  rewrite E. apply (varint_bytes_delimited 9).
  change (2 ^ (7 * Z.of_nat 10)) with (2 ^ 70).
  destruct (Z.ltb_spec v 0); lia.
Qed.

Lemma pack_varint_self_delimiting_witness :
  exists init last,
    [xac; x02] = init ++ [last]
    /\ forallb continues init = true /\ continues last = false.
Proof.
  apply (pack_varint_self_delimiting 300 32 [xac; x02] eq_refl). lia.
Defined.

Lemma varint_bytes_overflow (n : nat) :
  forall v w,
    2 ^ (7 * Z.of_nat n) <= v -> 2 ^ (7 * Z.of_nat n) <= w ->
    v mod 2 ^ (7 * Z.of_nat n) = w mod 2 ^ (7 * Z.of_nat n) ->
    varint_bytes n v = varint_bytes n w
    /\ length (varint_bytes n v) = n
    /\ forallb continues (varint_bytes n v) = true.
Proof.
  induction n as [|n IH]; intros v w Hv Hw Hmod.
  - repeat split.
  - cbn [varint_bytes].
    rewrite !Z.shiftr_div_pow2 by lia. change (2 ^ 7) with 128.
    replace (7 * Z.of_nat (S n)) with (7 + 7 * Z.of_nat n) in * by lia.
    rewrite Z.pow_add_r in * by lia. change (2 ^ 7) with 128 in *.
    set (P := 2 ^ (7 * Z.of_nat n)) in *.
    assert (HP : 0 < P) by (apply Z.pow_pos_nonneg; lia).
    rewrite !Z.rem_mul_r in Hmod by lia.
    pose proof (Z.mod_pos_bound v 128 ltac:(lia)) as Mv.
    pose proof (Z.mod_pos_bound w 128 ltac:(lia)) as Mw.
    pose proof (Z.mod_pos_bound (v / 128) P HP) as Qv.
    pose proof (Z.mod_pos_bound (w / 128) P HP) as Qw.
    assert (Hv' : P <= v / 128) by (apply Z.div_le_lower_bound; lia).
    assert (Hw' : P <= w / 128) by (apply Z.div_le_lower_bound; lia).
    assert (E1 : v mod 128 = w mod 128) by lia.
    assert (E2 : (v / 128) mod P = (w / 128) mod P) by lia.
    destruct (IH _ _ Hv' Hw' E2) as (Ib & Il & If).
    destruct (Z.gtb_spec (v / 128) 0); [|lia].
    destruct (Z.gtb_spec (w / 128) 0); [|lia].
    destruct (Z.eqb_spec (v / 128) 0); [lia|].
    destruct (Z.eqb_spec (w / 128) 0); [lia|].
    rewrite E1, Ib. split; [reflexivity|]. split.
    + cbn [length]. rewrite <- Ib, Il. reflexivity.
    + cbn [forallb]. rewrite <- Ib, If, andb_true_r.
      apply (continues_byte true). exact Mw.
Qed.

(** X23.  From [2^70] on, which a width above 71 bits admits, the ten
    iterations run out: [pack_varint] returns ten bytes that all carry the
    continuation flag, and the bits from bit 70 up are dropped, so two
    such values that agree modulo [2^70] get the same bytes. *)
Theorem pack_varint_truncates (v w max_bits : Z) :
  2 ^ 70 <= v < 2 ^ (max_bits - 1) ->
  2 ^ 70 <= w < 2 ^ (max_bits - 1) ->
  v mod 2 ^ 70 = w mod 2 ^ 70 ->
  pack_varint v max_bits = pack_varint w max_bits
  /\ exists data,
       pack_varint v max_bits = Ok data
       /\ len data = 10 /\ forallb continues data = true.
Proof.
  intros Hv Hw Hmod.
  assert (Hc1 : check_range v max_bits = Ok tt)
    by (apply check_range_spec; lia).
  assert (Hc2 : check_range w max_bits = Ok tt)
    by (apply check_range_spec; lia).
  rewrite (pack_varint_in_range _ _ Hc1), (pack_varint_in_range _ _ Hc2).
  destruct (Z.ltb_spec v 0); [lia|]. destruct (Z.ltb_spec w 0); [lia|].
  destruct (varint_bytes_overflow 10 v w) as (Eb & El & Ef);
    try (change (2 ^ (7 * Z.of_nat 10)) with (2 ^ 70); lia).
  rewrite Eb. split; [reflexivity|].
  exists (varint_bytes 10 w). rewrite <- Eb.
  split; [reflexivity|]. split; [|exact Ef].
  unfold len. rewrite El. reflexivity.
Qed.

Lemma pack_varint_truncates_witness :
  pack_varint (2 ^ 70) 73 = pack_varint (2 ^ 71) 73
  /\ exists data,
       pack_varint (2 ^ 70) 73 = Ok data
       /\ len data = 10 /\ forallb continues data = true.
Proof.
  apply (pack_varint_truncates (2 ^ 70) (2 ^ 71) 73);
    [simpl; lia | simpl; lia | reflexivity].
Defined.

Lemma varint_bytes_negative (n : nat) :
  forall num, num < 0 ->
    length (varint_bytes n num) = n
    /\ forallb (fun b => negb (continues b)) (varint_bytes n num) = true.
Proof.
  induction n as [|n IH]; intros num Hneg; [repeat split|].
  cbn [varint_bytes].
  rewrite !Z.shiftr_div_pow2 by lia. change (2 ^ 7) with 128.
  assert (Hq : num / 128 < 0) by (apply Z.div_lt_upper_bound; lia).
  destruct (Z.gtb_spec (num / 128) 0); [lia|].
  destruct (Z.eqb_spec (num / 128) 0); [lia|].
  destruct (IH _ Hq) as [Il If].
  split; [cbn [length]; rewrite Il; reflexivity|].
  cbn [forallb]. rewrite If, andb_true_r.
  rewrite (continues_byte false); [reflexivity|].
  apply Z.mod_pos_bound. lia.
Qed.

(** X24.  Below [-2^33], which a width above 34 bits admits, the fold
    leaves the number negative: [pack_varint] returns ten bytes none of
    which carries the continuation flag, so a reader stops after the
    first. *)
Theorem pack_varint_wide_negative (v max_bits : Z) :
  - 2 ^ (max_bits - 1) <= v < - 2 ^ 33 ->
  exists data,
    pack_varint v max_bits = Ok data
    /\ len data = 10
    /\ forallb (fun b => negb (continues b)) data = true.
Proof.
  intros Hv.
  assert (Hc : check_range v max_bits = Ok tt).
  { apply check_range_spec.
    assert (0 <= 2 ^ (max_bits - 1)) by (apply Z.pow_nonneg; lia). lia. }
  rewrite (pack_varint_in_range _ _ Hc), fold_constant_value.
  destruct (Z.ltb_spec v 0); [|lia].
  destruct (varint_bytes_negative 10 (v + 2 ^ 33) ltac:(lia)) as [Hl Hf].
  eexists. split; [reflexivity|]. split; [|exact Hf].
  unfold len. rewrite Hl. reflexivity.
Qed.

Lemma pack_varint_wide_negative_witness :
  exists data,
    pack_varint (- 2 ^ 40) 64 = Ok data
    /\ len data = 10
    /\ forallb (fun b => negb (continues b)) data = true.
Proof.
  apply (pack_varint_wide_negative (- 2 ^ 40) 64). simpl; lia.
Defined.

(** ** Positions outside the ranges *)

(** X25.  [pack_pos] checks no range.  A [y] that is too large by [2^12]
    is packed as the next [x], a [z] that is too large by [2^26] as the
    next [y], and a negative [y] gets the bytes of the [y] that is [2^12]
    above it: in each pair both positions are packed without raising, to
    the same bytes, while the neighbouring in-range positions
    [(x, y + 1, z)] and [(x + 1, y, z)] get different bytes. *)
Theorem pack_pos_aliases (x y z : Z) :
  0 <= x < 2 ^ 26 - 1 -> 0 <= y < 2 ^ 12 - 1 -> 0 <= z < 2 ^ 26 ->
  exists d1 d2 d3,
    pack_pos x (y + 2 ^ 12) z = Ok d1 /\ pack_pos (x + 1) y z = Ok d1
    /\ pack_pos x y (z + 2 ^ 26) = Ok d2 /\ pack_pos x (y + 1) z = Ok d2
    /\ pack_pos x (y - 2 ^ 12) z = Ok d3 /\ pack_pos x y z = Ok d3
    /\ d2 <> d1.
Proof.
  intros Hx Hy Hz.
  assert (W : forall a b c, 0 <= a -> 0 <= b -> 0 <= c ->
              pos_word a b c = a * 2 ^ 38 + b * 2 ^ 26 + c).
  { intros a b c Ha Hb Hc. unfold pos_word, to_twos_complement.
    destruct (Z.ltb_spec a 0); [lia|]. destruct (Z.ltb_spec b 0); [lia|].
    destruct (Z.ltb_spec c 0); [lia|].
    rewrite !Z.shiftl_mul_pow2 by lia. lia. }
  assert (E1 : pos_word x (y + 2 ^ 12) z = pos_word (x + 1) y z)
    by (rewrite !W by lia; lia).
  assert (E2 : pos_word x y (z + 2 ^ 26) = pos_word x (y + 1) z)
    by (rewrite !W by lia; lia).
  assert (E3 : pos_word x (y - 2 ^ 12) z = pos_word x y z).
  { rewrite (W x y z) by lia. unfold pos_word, to_twos_complement.
    destruct (Z.ltb_spec x 0); [lia|].
    destruct (Z.ltb_spec (y - 2 ^ 12) 0); [|lia].
    destruct (Z.ltb_spec z 0); [lia|].
    rewrite !Z.shiftl_mul_pow2 by lia. lia. }
  assert (R1 : 0 <= pos_word (x + 1) y z < 2 ^ 64) by (rewrite W by lia; lia).
  assert (R2 : 0 <= pos_word x (y + 1) z < 2 ^ 64) by (rewrite W by lia; lia).
  assert (R3 : 0 <= pos_word x y z < 2 ^ 64) by (rewrite W by lia; lia).
  destruct (struct_Q_roundtrip _ R1) as (d1 & Hp1 & _ & Hu1).
  destruct (struct_Q_roundtrip _ R2) as (d2 & Hp2 & _ & Hu2).
  destruct (struct_Q_roundtrip _ R3) as (d3 & Hp3 & _ & _).
  exists d1, d2, d3. unfold pack_pos. rewrite E1, E2, E3.
  repeat (split; [assumption|]).
  intros Heq. subst d2. rewrite Hu1 in Hu2. inversion Hu2 as [Hw].
  rewrite !W in Hw by lia. lia.
Qed.

Lemma pack_pos_aliases_witness :
  exists d1 d2 d3,
    pack_pos 0 (0 + 2 ^ 12) 0 = Ok d1 /\ pack_pos (0 + 1) 0 0 = Ok d1
    /\ pack_pos 0 0 (0 + 2 ^ 26) = Ok d2 /\ pack_pos 0 (0 + 1) 0 = Ok d2
    /\ pack_pos 0 (0 - 2 ^ 12) 0 = Ok d3 /\ pack_pos 0 0 0 = Ok d3
    /\ d2 <> d1.
Proof.
  apply (pack_pos_aliases 0 0 0); simpl; lia.
Defined.

(** ** Reads of a negative length *)

(** X26.  A read of a negative length raises nothing: as long as it does
    not pass the start, it returns no bytes and moves the position
    backwards by that length, so the bytes before the position are read
    again by the reads that follow. *)
Theorem read_negative (s : Buffer) (length : Z) :
  length < 0 -> 0 <= pos s + length ->
  read (Some length) s = (Ok [], mkBuffer (buf s) (pos s + length))
  /\ read (Some (- length)) (mkBuffer (buf s) (pos s + length))
     = (Ok (firstn (Z.to_nat (- length))
              (skipn (Z.to_nat (pos s + length)) (buf s))),
        mkBuffer (buf s) (pos s)).
Proof.
  intros Hn Hp. split.
  - unfold read. f_equal. f_equal.
    unfold py_slice, py_index.
    destruct (Z.ltb_spec (pos s) 0); [lia|].
    destruct (Z.ltb_spec (pos s + length) 0); [lia|].
    replace (Z.to_nat _) with 0%nat by lia. reflexivity.
  - destruct (read_truncates (mkBuffer (buf s) (pos s + length)) (- length)
                ltac:(cbn [pos]; lia) ltac:(lia)) as [-> _].
    cbn [buf pos]. f_equal. f_equal. lia.
Qed.

Lemma read_negative_witness :
  read (Some (-2)) (mkBuffer [x01; x02; x03] 3)
  = (Ok [], mkBuffer [x01; x02; x03] (3 + -2))
  /\ read (Some (- -2)) (mkBuffer [x01; x02; x03] (3 + -2))
     = (Ok [x02; x03], mkBuffer [x01; x02; x03] 3).
Proof.
  exact (read_negative (mkBuffer [x01; x02; x03] 3) (-2) eq_refl
           ltac:(discriminate)).
Defined.
